(** * rate.py: the relative Elo rater, embedded and verified

    The development follows [worker/tools/rate.py]:

    - [Str]: the [str] methods the parser calls ([splitlines], [rstrip],
      [strip], [in], [join]) and [float];
    - [Re]: the fragment of [re] the three patterns are written in, as a
      backtracking matcher that enumerates the matches in the order in
      which [re.match] tries them;
    - [Dict]: insertion-ordered dictionaries;
    - [Rate]: [die], [run_bayeselo], [parse_ratings], [mean_center] and
      [main], over an explicit record of what was printed on each channel.
    - [Binary64]: [mean_center] once more, over the floats of the
      interpreter.
    - [Gauntlet]: the command line builder of [tools/gauntlet.py], over a
      record of the events of a run.

    Two conventions hold throughout.  A character is a code point below
    256 (the type [ascii]); the classes [\s], [\d], [\w] and the line
    boundaries are the ones Python gives to those code points.  In [Rate]
    a [float] is an exact rational ([Qc]): rounding, infinities and NaN
    are outside that model, and what is proved of the arithmetic there
    holds of exact arithmetic.  [Binary64] is where the arithmetic of
    [mean_center] rounds as it does when the program runs. *)

From Stdlib Require Import List String Ascii Bool Arith ZArith NArith Lia.
From Stdlib Require Import QArith Qcanon Permutation Sorted.
From Stdlib Require PrimFloat Uint63.
From Stdlib Require Import DecimalString DecimalPos DecimalZ FinFun.
Import ListNotations.

Set Implicit Arguments.

Local Open Scope string_scope.

(* ------------------------------------------------------------------ *)
(** ** Characters and strings *)

Module Str.

Definition code (c : ascii) : N := N_of_ascii c.

Definition between (lo hi : N) (c : ascii) : bool :=
  ((lo <=? code c) && (code c <=? hi))%N.

(** [str.isspace] on one character: TAB, LF, VT, FF, CR, the separators
    FS GS RS US, SPACE, NEL and the no-break space. *)
Definition isspace (c : ascii) : bool :=
  between 9 13 c || between 28 32 c || (code c =? 133)%N || (code c =? 160)%N.

(** The characters [str.splitlines] breaks a line at. *)
Definition is_linebreak (c : ascii) : bool :=
  between 10 13 c || between 28 30 c || (code c =? 133)%N.

(** [\d] on a [str] pattern: below 256 the decimal digits are 0-9. *)
Definition isdigit (c : ascii) : bool := between 48 57 c.

(** [\w] on a [str] pattern: alphanumeric characters and the underscore. *)
Definition isword (c : ascii) : bool :=
  isdigit c || between 65 90 c || between 97 122 c || (code c =? 95)%N
  || (code c =? 170)%N || between 178 179 c || (code c =? 181)%N
  || between 185 186 c || between 188 190 c
  || between 192 214 c || between 216 246 c || between 248 255 c.

Definition LF : ascii := ascii_of_N 10.
Definition CR : ascii := ascii_of_N 13.

Definition is_empty (s : string) : bool :=
  match s with EmptyString => true | String _ _ => false end.

(** [s.splitlines()]: [cur] holds, reversed, the characters of the line
    being read.  A CR LF pair is one boundary, and a final boundary does
    not open an empty last line. *)
Fixpoint rev_to_string (cur : list ascii) (acc : string) : string :=
  match cur with
  | [] => acc
  | c :: cur' => rev_to_string cur' (String c acc)
  end.

Fixpoint splitlines_from (cur : list ascii) (s : string) : list string :=
  match s with
  | EmptyString =>
      match cur with [] => [] | _ :: _ => [rev_to_string cur ""] end
  | String c s' =>
      if is_linebreak c then
        rev_to_string cur "" ::
          (if Ascii.eqb c CR then
             match s' with
             | String d s'' =>
                 if Ascii.eqb d LF then splitlines_from [] s''
                 else splitlines_from [] s'
             | EmptyString => splitlines_from [] s'
             end
           else splitlines_from [] s')
      else splitlines_from (c :: cur) s'
  end.

Definition splitlines (s : string) : list string := splitlines_from [] s.

(** [s.lstrip()], [s.rstrip()], [s.strip()] with no argument. *)
Fixpoint lstrip (s : string) : string :=
  match s with
  | EmptyString => EmptyString
  | String c s' => if isspace c then lstrip s' else s
  end.

Fixpoint rstrip (s : string) : string :=
  match s with
  | EmptyString => EmptyString
  | String c s' =>
      let r := rstrip s' in
      if isspace c && is_empty r then EmptyString else String c r
  end.

Definition strip (s : string) : string := lstrip (rstrip s).

(** [sub in s]. *)
Fixpoint startswith (sub s : string) : bool :=
  match sub, s with
  | EmptyString, _ => true
  | String a sub', String b s' => Ascii.eqb a b && startswith sub' s'
  | String _ _, EmptyString => false
  end.

Fixpoint contains (sub s : string) : bool :=
  startswith sub s ||
  match s with
  | EmptyString => false
  | String _ s' => contains sub s'
  end.

(** [sep.join(parts)]. *)
Fixpoint join (sep : string) (parts : list string) : string :=
  match parts with
  | [] => ""
  | [p] => p
  | p :: rest => p ++ sep ++ join sep rest
  end.

(** [xs[-n:]] on a list. *)
Definition last_n {A} (n : nat) (xs : list A) : list A :=
  skipn (List.length xs - n) xs.

(** *** [float]

    [float] is modelled on the numerals the three patterns capture: an
    optional minus sign, digits, and optionally a point followed by
    digits.  Its value is the exact decimal.  Every other argument
    (exponents, [inf], [nan], surrounding blanks) is outside the model
    and answered [None], which the caller turns into [ValueError]. *)

Definition digit_val (c : ascii) : Z := Z.of_N (code c) - 48.

(** Reads a run of digits: the number read so far, how many digits were
    read, and what follows the run. *)
Fixpoint digits_from (acc : Z) (n : nat) (s : string) : Z * nat * string :=
  match s with
  | String c s' =>
      if isdigit c then digits_from (10 * acc + digit_val c) (S n) s'
      else (acc, n, s)
  | EmptyString => (acc, n, s)
  end.

(** The number a run of digits denotes after the digits read as [acc]. *)
Fixpoint digits_value (acc : Z) (w : string) : Z :=
  match w with
  | String c w' => digits_value (10 * acc + digit_val c) w'
  | EmptyString => acc
  end.

Definition unsigned_float (s : string) : option Qc :=
  match digits_from 0 0 s with
  | (_, O, _) => None
  | (ip, S _, EmptyString) => Some (Q2Qc (inject_Z ip))
  | (ip, S _, String c s') =>
      if Ascii.eqb c "." then
        match digits_from ip 0 s' with
        | (_, O, _) => None
        | (m, S k, EmptyString) => Some (Q2Qc (m # 10 ^ Pos.of_succ_nat k))
        | (_, S _, String _ _) => None
        end
      else None
  end.

Definition float (s : string) : option Qc :=
  match s with
  | String c s' =>
      if Ascii.eqb c "-" then option_map Qcopp (unsigned_float s')
      else unsigned_float s
  | EmptyString => None
  end.

End Str.

(* ------------------------------------------------------------------ *)
(** ** Regular expressions

    The constructs of [re] that [pat_cols], [pat_pm] and [pat_fb] use.
    [run r st] lists the states in which [r] can stop when started in
    [st], in the order in which the backtracking matcher of [re] reaches
    them: a greedy quantifier offers its longest repetition first, a lazy
    one its shortest, and a concatenation exhausts the continuations of
    one choice before it moves to the next.  [re.match] therefore returns
    the head of that list. *)

Module Re.

Inductive cls := Space | Digit | Dot.

Definition cls_match (k : cls) (c : ascii) : bool :=
  match k with
  | Space => Str.isspace c
  | Digit => Str.isdigit c
  | Dot => negb (Ascii.eqb c Str.LF)
  end.

Inductive regex :=
| Bol                                   (* ^ *)
| Eol                                   (* $ *)
| WordB                                 (* \b *)
| Lit (c : ascii)                       (* an escaped or plain character *)
| Star (k : cls)                        (* k*   greedy *)
| Plus (k : cls)                        (* k+   greedy *)
| PlusLazy (k : cls)                    (* k+?  lazy *)
| Opt (r : regex)                       (* r?   greedy *)
| Cat (r1 r2 : regex)
| Group (n : nat) (r : regex).          (* the n-th capturing group *)

(** A matcher state: the character just before the position ([None] at
    the start of the string), the text from the position on, and the
    groups closed so far, most recent first. *)
Record mstate := MState {
  prev : option ascii;
  rest : string;
  groups : list (nat * string)
}.

Definition start (s : string) : mstate := MState None s [].

Definition word_at (c : option ascii) : bool :=
  match c with Some a => Str.isword a | None => false end.

Definition next (s : string) : option ascii :=
  match s with String a _ => Some a | EmptyString => None end.

(** The positions a repetition of class [k] can stop at, shortest first. *)
Fixpoint repeat_from (k : cls) (p : option ascii) (s : string)
  : list (option ascii * string) :=
  (p, s) ::
  match s with
  | String a s' => if cls_match k a then repeat_from k (Some a) s' else []
  | EmptyString => []
  end.

Definition plus_from (k : cls) (s : string) : list (option ascii * string) :=
  match s with
  | String a s' => if cls_match k a then repeat_from k (Some a) s' else []
  | EmptyString => []
  end.

Definition move (st : mstate) (ps : option ascii * string) : mstate :=
  MState (fst ps) (snd ps) (groups st).

(** The text between two positions of the same string. *)
Definition consumed (from to : string) : string :=
  substring 0 (String.length from - String.length to) from.

Fixpoint run (r : regex) (st : mstate) : list mstate :=
  match r with
  | Bol => match prev st with None => [st] | Some _ => [] end
  | Eol =>
      match rest st with
      | EmptyString => [st]
      | String c EmptyString => if Ascii.eqb c Str.LF then [st] else []
      | _ => []
      end
  | WordB =>
      if xorb (word_at (prev st)) (word_at (next (rest st))) then [st] else []
  | Lit c =>
      match rest st with
      | String a s' =>
          if Ascii.eqb a c then [MState (Some a) s' (groups st)] else []
      | EmptyString => []
      end
  | Star k => map (move st) (rev (repeat_from k (prev st) (rest st)))
  | Plus k => map (move st) (rev (plus_from k (rest st)))
  | PlusLazy k => map (move st) (plus_from k (rest st))
  | Opt r' => run r' st ++ [st]
  | Cat r1 r2 => flat_map (run r2) (run r1 st)
  | Group n r' =>
      map (fun st' =>
             MState (prev st') (rest st')
                    ((n, consumed (rest st) (rest st')) :: groups st'))
          (run r' st)
  end.

Module Notations.
  Infix "+>" := Cat (at level 61, right associativity).
End Notations.

(** A match object: the groups of the first state [run] reaches. *)
Definition match_ (r : regex) (s : string) : option (list (nat * string)) :=
  match run r (start s) with
  | st :: _ => Some (groups st)
  | [] => None
  end.

(** [m.group(n)]; [None] when the group took no part in the match. *)
Fixpoint group (m : list (nat * string)) (n : nat) : option string :=
  match m with
  | [] => None
  | (k, s) :: m' => if Nat.eqb k n then Some s else group m' n
  end.

(** *** What a match means

    [sem r gs w gs'] reads: [r] can consume the text [w] and turn the
    groups [gs] into [gs'].  The anchors consume nothing; what they
    require of the surroundings is not recorded here. *)

Fixpoint all_cls (k : cls) (w : string) : bool :=
  match w with
  | EmptyString => true
  | String a w' => cls_match k a && all_cls k w'
  end.

Fixpoint sem (r : regex) (gs : list (nat * string)) (w : string)
         (gs' : list (nat * string)) : Prop :=
  match r with
  | Bol | Eol | WordB => w = "" /\ gs' = gs
  | Lit c => w = String c "" /\ gs' = gs
  | Star k => all_cls k w = true /\ gs' = gs
  | Plus k | PlusLazy k => w <> "" /\ all_cls k w = true /\ gs' = gs
  | Opt r' => (w = "" /\ gs' = gs) \/ sem r' gs w gs'
  | Cat r1 r2 =>
      exists w1 w2 gs1,
        w = w1 ++ w2 /\ sem r1 gs w1 gs1 /\ sem r2 gs1 w2 gs'
  | Group n r' => exists gs1, sem r' gs w gs1 /\ gs' = (n, w) :: gs1
  end.

(** The numerals the patterns capture. *)
Definition digits (w : string) : Prop := w <> "" /\ all_cls Digit w = true.

Definition unsigned_numeral (w : string) : Prop :=
  exists ip, digits ip /\
    (w = ip \/ exists fp, digits fp /\ w = ip ++ "." ++ fp).

Definition signed_numeral (w : string) : Prop :=
  unsigned_numeral w \/ exists u, unsigned_numeral u /\ w = "-" ++ u.

End Re.

(* ------------------------------------------------------------------ *)
(** ** Dictionaries

    A [dict] keeps its keys in the order of their first insertion, and
    assigning to a key that is present replaces the value where it
    stands.  [sorted] iterates [items()] in that order, so the order is
    part of the model. *)

Module Dict.
Section Dict.

Variable V : Type.

Definition t := list (string * V).

Definition empty : t := [].

(** [d[k] = v] *)
Fixpoint set (d : t) (k : string) (v : V) : t :=
  match d with
  | [] => [(k, v)]
  | (k', v') :: d' =>
      if String.eqb k' k then (k', v) :: d' else (k', v') :: set d' k v
  end.

(** [d.get(k)] *)
Fixpoint get (d : t) (k : string) : option V :=
  match d with
  | [] => None
  | (k', v') :: d' => if String.eqb k' k then Some v' else get d' k
  end.

Definition keys (d : t) : list string := map fst d.
Definition values (d : t) : list V := map snd d.
Definition items (d : t) : list (string * V) := d.
Definition len (d : t) : nat := List.length d.

(** [not d] *)
Definition is_empty (d : t) : bool :=
  match d with [] => true | _ :: _ => false end.

(** What every [dict] satisfies: a key occurs once. *)
Definition wf (d : t) : Prop := NoDup (keys d).

End Dict.
End Dict.

(* ------------------------------------------------------------------ *)
(** ** [sorted]

    [sorted(xs, key=f, reverse=b)] is a stable sort on the keys.  With
    [reverse=True] CPython reverses the list, sorts it upwards with the
    same stable sort and reverses the result, so that equal keys keep
    their order there too.  A stable sort has one possible result, which
    insertion computes as well as the merge sort of CPython does. *)

Module Sorting.
Section Sorted.

Variable A : Type.
Variable key : A -> Qc.

Definition Qcleb (a b : Qc) : bool := Qle_bool a b.

Fixpoint insert (x : A) (l : list A) : list A :=
  match l with
  | [] => [x]
  | y :: l' => if Qcleb (key x) (key y) then x :: l else y :: insert x l'
  end.

(** The stable upwards sort: an element goes in front of the elements
    that followed it and whose key is not smaller. *)
Fixpoint sort_up (l : list A) : list A :=
  match l with
  | [] => []
  | x :: l' => insert x (sort_up l')
  end.

Definition sorted (reverse : bool) (l : list A) : list A :=
  if reverse then rev (sort_up (rev l)) else sort_up l.

(** The orders on the keys, and the test that selects one key. *)
Definition up (a b : A) : Prop := (key a <= key b)%Qc.
Definition down (a b : A) : Prop := (key b <= key a)%Qc.
Definition has_key (d : Qc) (a : A) : bool := Qc_eq_bool (key a) d.

End Sorted.
End Sorting.

(* ------------------------------------------------------------------ *)
(** ** The program *)

Module Rate.

Import Re.Notations.
Local Open Scope Qc_scope.

(** *** Values printed on the two channels *)

#[local] Unset Elimination Schemes.
Inductive json :=
| JStr (s : string)
| JNum (q : Qc)
| JList (l : list json)
| JDict (l : list (string * json)).
#[local] Set Elimination Schemes.

(** What [print(json.dumps(v, indent=i))] writes. *)
Record text := Dumps { dumped : json; indent : option nat }.

(** The messages of the program.  Each keeps the arguments of its
    f-string; the comment gives the string they are formatted into. *)
Inductive message :=
| PgnNotFound (pgn : string)
    (* "❌ PGN not found: {pgn}" *)
| BayesEloNotExecutable (bin : string)
    (* "❌ BayesElo not executable: {bin}" *)
| BayesEloNotFound (bin : string)
    (* "❌ BayesElo not found: {bin}" *)
| BayesEloFailed (returncode : Z) (out : string)
    (* "❌ BayesElo failed ({returncode})\n{out}" *)
| CouldNotParse (tail : string)
    (* "❌ Could not parse BayesElo ratings output.\n--- tail ---\n" + tail *)
| EngineNotFound (engine_name : string) (players : list string)
    (* "❌ engine '{engine_name}' not found among players: {players}" *)
| Traceback (e : string).
    (* what the interpreter prints for an exception nobody caught *)

Record io := IO { stdout : list text; stderr : list message }.

(** *** Control: a call returns, leaves through [sys.exit], or raises *)

Inductive res (A : Type) :=
| Ret (a : A)
| Exit (code : Z)
| Raise (e : string).
Arguments Ret {A} a.
Arguments Exit {A} code.
Arguments Raise {A} e.

Definition M (A : Type) := io -> io * res A.

Definition ret {A} (a : A) : M A := fun w => (w, Ret a).

Definition bind {A B} (c : M A) (k : A -> M B) : M B :=
  fun w =>
    match c w with
    | (w', Ret a) => k a w'
    | (w', Exit code) => (w', Exit code)
    | (w', Raise e) => (w', Raise e)
    end.

Notation "x <- c ;; k" := (bind c (fun x => k))
  (at level 62, c at next level, right associativity).
Notation "c ;; k" := (bind c (fun _ => k))
  (at level 62, right associativity).

Definition raise {A} (e : string) : M A := fun w => (w, Raise e).
Definition sys_exit {A} (code : Z) : M A := fun w => (w, Exit code).

Definition print (x : text) : M unit :=
  fun w => (IO (stdout w ++ [x]) (stderr w), Ret tt).
Definition print_stderr (m : message) : M unit :=
  fun w => (IO (stdout w) (stderr w ++ [m]), Ret tt).

(** [die(msg, code=1)] *)
Definition die_with {A} (msg : message) (code : Z) : M A :=
  print_stderr msg ;; sys_exit code.
Definition die {A} (msg : message) : M A := die_with msg 1.

(** [if c: body], where [body] only ever leaves or falls through. *)
Definition when (c : bool) (body : M unit) : M unit :=
  if c then body else ret tt.

(** *** The operating system, as far as the program consults it *)

Record os := OS {
  isfile : string -> bool;               (* os.path.isfile *)
  access_x : string -> bool;             (* os.access(_, os.X_OK) *)
  (* subprocess.Popen([bin], ...): [None] is FileNotFoundError, the one
     error [run_bayeselo] catches; a process maps what is written to its
     input to its return code and its merged output. *)
  popen : string -> option (string -> Z * string)
}.

Definition nl : string := String Str.LF "".

Definition run_bayeselo (sys : os) (bayeselo_bin pgn : string) : M string :=
  let script :=
    "readpgn " ++ pgn ++ nl ++ "elo" ++ nl ++ "mm" ++ nl ++ "ratings" ++ nl
    ++ "x" ++ nl in
  match popen sys bayeselo_bin with
  | None => die (BayesEloNotFound bayeselo_bin)
  | Some proc =>
      let '(returncode, out) := proc script in
      when (negb (returncode =? 0)%Z) (die (BayesEloFailed returncode out)) ;;
      ret out
  end.

(** The commands [run_bayeselo] writes to the backend for the results
    log [pgn]: the value of [script]. *)
Definition script (pgn : string) : string :=
  "readpgn " ++ pgn ++ nl ++ "elo" ++ nl ++ "mm" ++ nl ++ "ratings" ++ nl
  ++ "x" ++ nl.

(** *** The patterns *)

(** [-?\d+(?:\.\d+)?] and [\d+(?:\.\d+)?] *)
Definition unsigned_num : Re.regex :=
  Re.Plus Re.Digit +> Re.Opt (Re.Lit "." +> Re.Plus Re.Digit).
Definition signed_num : Re.regex :=
  Re.Opt (Re.Lit "-") +> unsigned_num.

(** [^\s*\d+\s+(.+?)\s+(-?\d+(?:\.\d+)?)\s+(\d+(?:\.\d+)?)\b] *)
Definition pat_cols : Re.regex :=
  Re.Bol +> Re.Star Re.Space +> Re.Plus Re.Digit +> Re.Plus Re.Space +>
  Re.Group 1 (Re.PlusLazy Re.Dot) +> Re.Plus Re.Space +>
  Re.Group 2 signed_num +> Re.Plus Re.Space +>
  Re.Group 3 unsigned_num +> Re.WordB.

(** [^\s*(.+?)\s*:\s*(-?\d+(?:\.\d+)?)\s*\+/\-\s*(\d+(?:\.\d+)?)\s*$] *)
Definition pat_pm : Re.regex :=
  Re.Bol +> Re.Star Re.Space +>
  Re.Group 1 (Re.PlusLazy Re.Dot) +> Re.Star Re.Space +> Re.Lit ":" +>
  Re.Star Re.Space +> Re.Group 2 signed_num +> Re.Star Re.Space +>
  Re.Lit "+" +> Re.Lit "/" +> Re.Lit "-" +> Re.Star Re.Space +>
  Re.Group 3 unsigned_num +> Re.Star Re.Space +> Re.Eol.

(** [^\s*(.+?)\s+(-?\d+(?:\.\d+)?)\s+(\d+(?:\.\d+)?)\s*$] *)
Definition pat_fb : Re.regex :=
  Re.Bol +> Re.Star Re.Space +>
  Re.Group 1 (Re.PlusLazy Re.Dot) +> Re.Plus Re.Space +>
  Re.Group 2 signed_num +> Re.Plus Re.Space +>
  Re.Group 3 unsigned_num +> Re.Star Re.Space +> Re.Eol.

(** [a or b] on two optional match objects: a match object is true. *)
Definition or_else {A} (a b : option A) : option A :=
  match a with Some _ => a | None => b end.

(** *** [parse_ratings] *)

Definition ratings_t := Dict.t (Qc * Qc).

(** The loop that looks for the header: [start] keeps its initial 0 when
    no line mentions both words. *)
Fixpoint find_start (i : nat) (lines : list string) : nat :=
  match lines with
  | [] => 0%nat
  | ln :: lines' =>
      if Str.contains "Name" ln && Str.contains "Elo" ln then (i + 1)%nat
      else find_start (i + 1) lines'
  end.

(** [m.group(n)] where a string is needed: on [None], [.strip()] raises
    AttributeError and [float] raises TypeError. *)
Definition group_text (m : list (nat * string)) (n : nat) (e : string)
  : res string :=
  match Re.group m n with
  | Some s => Ret s
  | None => Raise e
  end.

Definition to_float (s : string) : res Qc :=
  match Str.float s with
  | Some q => Ret q
  | None => Raise "ValueError"
  end.

Definition res_bind {A B} (r : res A) (k : A -> res B) : res B :=
  match r with
  | Ret a => k a
  | Exit code => Exit code
  | Raise e => Raise e
  end.

(** Line 65: the three patterns in turn. *)
Definition first_match (ln : string) : option (list (nat * string)) :=
  or_else (Re.match_ pat_cols ln)
    (or_else (Re.match_ pat_pm ln) (Re.match_ pat_fb ln)).

(** Lines 67 to 69: the record a match object holds. *)
Definition record_of (m : list (nat * string)) : res (string * (Qc * Qc)) :=
  res_bind (group_text m 1 "AttributeError") (fun g1 =>
  let name := Str.strip g1 in
  res_bind (group_text m 2 "TypeError") (fun g2 =>
  res_bind (to_float g2) (fun elo =>
  res_bind (group_text m 3 "TypeError") (fun g3 =>
  res_bind (to_float g3) (fun err =>
  Ret (name, (elo, err))))))).

(** Lines 62 to 69: what one line contributes, if anything. *)
Definition extract (ln : string) : res (option (string * (Qc * Qc))) :=
  let ln := Str.rstrip ln in
  if Str.is_empty (Str.strip ln) then Ret None
  else
    match first_match ln with
    | Some m => res_bind (record_of m) (fun rec => Ret (Some rec))
    | None => Ret None
    end.

(** The body of the loop over [lines[start:]]. *)
Definition scan_line (ratings : ratings_t) (ln : string) : res ratings_t :=
  res_bind (extract ln) (fun rec =>
  match rec with
  | Some (name, v) => Ret (Dict.set ratings name v)
  | None => Ret ratings
  end).

Fixpoint scan_lines (ratings : ratings_t) (lines : list string)
  : res ratings_t :=
  match lines with
  | [] => Ret ratings
  | ln :: lines' =>
      res_bind (scan_line ratings ln) (fun ratings' =>
      scan_lines ratings' lines')
  end.

Definition lift {A} (r : res A) : M A := fun w => (w, r).

(** [lines[start:]], the lines the loop visits. *)
Definition scanned_lines (output : string) : list string :=
  let lines := Str.splitlines output in
  skipn (find_start 0 lines) lines.

Definition parse_ratings (output : string) : M ratings_t :=
  let lines := Str.splitlines output in
  let start := find_start 0 lines in
  ratings <- lift (scan_lines (Dict.empty _) (skipn start lines)) ;;
  when (Dict.is_empty ratings)
    (let tail := Str.join nl (Str.last_n 40 lines) in
     die (CouldNotParse tail)) ;;
  ret ratings.

(** *** [mean_center] *)

(** [sum(xs)]: the additions run from the left, starting at 0. *)
Definition sum (xs : list Qc) : Qc := fold_left Qcplus xs 0.

Definition of_nat (n : nat) : Qc := Q2Qc (inject_Z (Z.of_nat n)).

Definition mean_center (ratings : ratings_t) : ratings_t :=
  if Dict.is_empty ratings then ratings
  else
    let mean := sum (map fst (Dict.values ratings)) / of_nat (Dict.len ratings) in
    fold_left
      (fun d '(name, (elo, sigma)) => Dict.set d name (elo - mean, sigma))
      (Dict.items ratings) (Dict.empty _).

(** The arithmetic mean, as the specification words it, and the record
    it asks for in place of [(name, (rating, uncertainty))]. *)
Definition arithmetic_mean (xs : list Qc) : Qc :=
  sum xs / of_nat (List.length xs).

Definition centred (mean : Qc) (kv : string * (Qc * Qc)) : string * (Qc * Qc) :=
  (fst kv, (fst (snd kv) - mean, snd (snd kv))).

Definition ratings_of (t : ratings_t) : list Qc := map fst (Dict.values t).
Definition uncertainties_of (t : ratings_t) : list Qc := map snd (Dict.values t).

(** *** [main] *)

(** The namespace [ap.parse_args()] returns.  A command line that
    argparse rejects never reaches the body of [main]. *)
Record args := Args {
  pgn : string;
  bayeselo : string;
  engine_name : option string    (* [None] unless --engine-name is given *)
}.

Record row := Row { name : string; elo : Qc; sigma : Qc }.

Definition row_json (r : row) : json :=
  JDict [("name", JStr (name r)); ("elo", JNum (elo r));
         ("sigma", JNum (sigma r))].

Definition row_of_item (kv : string * (Qc * Qc)) : row :=
  Row (fst kv) (fst (snd kv)) (snd (snd kv)).

(** [lambda kv: kv[1][0]] *)
Definition by_elo (kv : string * (Qc * Qc)) : Qc := fst (snd kv).

(** Lines 101 to 103. *)
Definition build_rows (rel : ratings_t) : list row :=
  map row_of_item (Sorting.sorted by_elo true (Dict.items rel)).

Definition payload (a : args) (rows : list row) : json :=
  JDict [("version", JStr "0");
         ("mode", JStr "relative-only");
         ("pgn", JStr (pgn a));
         ("ratings", JList (map row_json rows));
         ("notes", JStr "Relative Elo, mean-centered; not calibrated to any external scale.")].

Definition engine_payload (a : args) (r : row) : json :=
  JDict [("version", JStr "0");
         ("mode", JStr "relative-only");
         ("pgn", JStr (pgn a));
         ("engine", row_json r);
         ("notes", JStr "Relative Elo, mean-centered; not calibrated.")].

(** [if args.engine_name:] holds for a name that is given and not empty. *)
Definition truthy (s : option string) : option string :=
  match s with
  | Some s' => if Str.is_empty s' then None else Some s'
  | None => None
  end.

(** Lines 100 to 125: the report, from the centred table on. *)
Definition report (a : args) (rel : ratings_t) : M unit :=
  let rows := build_rows rel in
  match truthy (engine_name a) with
  | Some target =>
      match find (fun r => String.eqb (name r) target) rows with
      | None => die (EngineNotFound target (map name rows))
      | Some r => print (Dumps (engine_payload a r) None)
      end
  | None => print (Dumps (payload a rows) (Some 2%nat))
  end.

Definition main (sys : os) (a : args) : M unit :=
  when (negb (isfile sys (pgn a))) (die (PgnNotFound (pgn a))) ;;
  when (negb (isfile sys (bayeselo a) && access_x sys (bayeselo a)))
    (die (BayesEloNotExecutable (bayeselo a))) ;;
  raw_out <- run_bayeselo sys (bayeselo a) (pgn a) ;;
  raw <- parse_ratings raw_out ;;
  let rel := mean_center raw in
  report a rel.

(** Running the script: the exit status of the process and what it left
    on the two channels.  An exception nobody caught is reported on the
    error channel with status 1. *)
Record outcome := Outcome {
  out_stdout : list text;
  out_stderr : list message;
  status : Z
}.

Definition run_main (sys : os) (a : args) : outcome :=
  match main sys a (IO [] []) with
  | (w, Ret _) => Outcome (stdout w) (stderr w) 0
  | (w, Exit code) => Outcome (stdout w) (stderr w) code
  | (w, Raise e) => Outcome (stdout w) (stderr w ++ [Traceback e]) 1
  end.

(** *** What the parser guarantees about a match and about a record *)

(** The groups of a match of any of the three patterns. *)
Definition well_captured (m : list (nat * string)) : Prop :=
  exists g1 g2 g3,
    m = [(3%nat, g3); (2%nat, g2); (1%nat, g1)]
    /\ g1 <> "" /\ Re.signed_numeral g2 /\ Re.unsigned_numeral g3.

(** A record read off some line of [lines]: its name is the stripped
    text of the first group, which is not empty before stripping, and
    its uncertainty is not negative. *)
Definition read_from (lines : list string) (rec : string * (Qc * Qc)) : Prop :=
  0 <= snd (snd rec)
  /\ exists ln m g1,
       In ln lines
       /\ first_match (Str.rstrip ln) = Some m
       /\ Re.group m 1 = Some g1 /\ g1 <> ""
       /\ fst rec = Str.strip g1.

(** The message [parse_ratings] dies with. *)
Definition parse_failure_message (output : string) : message :=
  CouldNotParse (Str.join nl (Str.last_n 40 (Str.splitlines output))).

(** What the loop body does with a line that is not blank, rule by rule. *)
Definition by_first_rule (ratings : ratings_t) (ln : string) : res ratings_t :=
  let store m :=
    res_bind (record_of m) (fun rec =>
    Ret (Dict.set ratings (fst rec) (snd rec))) in
  match Re.match_ pat_cols ln with
  | Some m => store m
  | None =>
      match Re.match_ pat_pm ln with
      | Some m => store m
      | None =>
          match Re.match_ pat_fb ln with
          | Some m => store m
          | None => Ret ratings
          end
      end
  end.

(** The failure kinds of the specification, and the kind each message of
    the program reports.  A traceback belongs to none of them. *)
Inductive failure :=
| InputNotFound | BackendFailure | ParseFailure | ParticipantNotFound.

Definition failure_kind (m : message) : option failure :=
  match m with
  | PgnNotFound _ | BayesEloNotExecutable _ | BayesEloNotFound _ =>
      Some InputNotFound
  | BayesEloFailed _ _ => Some BackendFailure
  | CouldNotParse _ => Some ParseFailure
  | EngineNotFound _ _ => Some ParticipantNotFound
  | Traceback _ => None
  end.

(** *** The situations [main] tells apart *)

(** The test of line 93: the backend is a file, and it may be executed. *)
Definition usable (sys : os) (bin : string) : bool :=
  isfile sys bin && access_x sys bin.

(** The checks of lines 91 to 94 passed, and the backend, started and
    given [script], ended with [returncode] after it wrote [out]. *)
Definition backend_ran (sys : os) (a : args) (returncode : Z) (out : string)
  : Prop :=
  isfile sys (pgn a) = true
  /\ usable sys (bayeselo a) = true
  /\ exists proc,
       popen sys (bayeselo a) = Some proc
       /\ proc (script (pgn a)) = (returncode, out).

(** The loop of [parse_ratings] over [out] ends with the table [t]. *)
Definition scanned (out : string) (t : ratings_t) : Prop :=
  scan_lines (Dict.empty _) (scanned_lines out) = Ret t.

(** *** Sample data *)

Definition two_lines (l1 l2 : string) : string := l1 ++ nl ++ l2.

(** A backend whose report is a header and three rows, the file system
    it needs, and the command line that filters on the second row. *)
Definition sample_report : string :=
  "Name  Elo  Error" ++ nl ++ "EngineA 100 30" ++ nl ++ "EngineB 0 20" ++ nl
  ++ "EngineC -100 10" ++ nl.

Definition sample_os : os :=
  OS (fun _ => true) (fun _ => true) (fun _ => Some (fun _ => (0%Z, sample_report))).

Definition sample_args (engine : option string) : args :=
  Args "runs/gauntlet.pgn" "tools/bin/bayeselo" engine.

Definition table_AB : ratings_t :=
  [("EngineA", (Q2Qc 120, Q2Qc 35)); ("EngineB", (Q2Qc (171 # 2), Q2Qc 12))].

(** The table [sample_report] holds, and a file system without the
    results log. *)
Definition sample_table : ratings_t :=
  [("EngineA", (Q2Qc 100, Q2Qc 30)); ("EngineB", (Q2Qc 0, Q2Qc 20));
   ("EngineC", (Q2Qc (-100), Q2Qc 10))].

Definition no_pgn_os : os :=
  OS (fun _ => false) (fun _ => true) (fun _ => None).

End Rate.

(* ------------------------------------------------------------------ *)
(** ** Vocabulary for further properties of rate.py *)

Module RateMore.
Import Rate.
Local Open Scope Qc_scope.

(** The test of line 57: the line mentions both words. *)
Definition is_header (ln : string) : bool :=
  Str.contains "Name" ln && Str.contains "Elo" ln.

(** The records the visited lines yield, in the order of the lines. *)
Definition yielded (lines : list string) : list (string * (Qc * Qc)) :=
  flat_map (fun ln =>
              match extract ln with
              | Ret (Some rec) => [rec]
              | _ => []
              end) lines.

(** The names of [names] that are not in [seen], each once, in the order
    in which they first occur. *)
Fixpoint first_seen (seen names : list string) : list string :=
  match names with
  | [] => []
  | n :: names' =>
      if in_dec string_dec n seen then first_seen seen names'
      else n :: first_seen (seen ++ [n]) names'
  end.

(** The table with [c] added to every rating. *)
Definition shift (c : Qc) (t : ratings_t) : ratings_t :=
  map (fun kv => (fst kv, (fst (snd kv) + c, snd (snd kv)))) t.

(** A string with no blank in it, and a run of blanks. *)
Fixpoint no_space (w : string) : bool :=
  match w with
  | EmptyString => true
  | String a w' => negb (Str.isspace a) && no_space w'
  end.

Definition blanks (w : string) : Prop :=
  w <> "" /\ Re.all_cls Re.Space w = true.

(** What may follow the last column of a row: nothing, or a blank and
    further columns. *)
Definition column_end (tail : string) : Prop :=
  tail = ""
  \/ exists a tail', tail = String a tail' /\ Str.isspace a = true.

(** Every character of [w] passes the test [f]. *)
Fixpoint every (f : ascii -> bool) (w : string) : bool :=
  match w with
  | EmptyString => true
  | String a w' => f a && every f w'
  end.

(** [c not in w] *)
Definition lacks (c : ascii) (w : string) : bool :=
  every (fun a => negb (Ascii.eqb a c)) w.

(** A character a name may hold when the row is in the colon layout:
    neither a blank nor the colon. *)
Definition plain (a : ascii) : bool :=
  negb (Str.isspace a) && negb (Ascii.eqb a ":").

(** What may follow a numeral without being taken for a part of it:
    neither a digit nor a point. *)
Definition num_end (s : string) : Prop :=
  match s with
  | EmptyString => True
  | String a _ => Str.isdigit a = false /\ a <> "."%char
  end.

(** *** Following the matcher along its first choices *)

(** [r], started in [st], reaches [st'] before any other state. *)
Definition heads (r : Re.regex) (st st' : Re.mstate) : Prop :=
  exists l, Re.run r st = st' :: l.

(** A repetition of class [k] cannot go on into [s]. *)
Definition stops (k : Re.cls) (s : string) : bool :=
  match s with
  | EmptyString => true
  | String a _ => negb (Re.cls_match k a)
  end.

(** The character before the position once [w] has been consumed. *)
Fixpoint last_of (p : option ascii) (w : string) : option ascii :=
  match w with
  | EmptyString => p
  | String a w' => last_of (Some a) w'
  end.

End RateMore.

(* ------------------------------------------------------------------ *)
(** ** [mean_center] over binary64

    [Rate.mean_center] computes with exact rationals.  Here the function
    is written once more, line by line, over an arithmetic that is left
    open, and then over binary64, the [float] of CPython, where every
    addition, the division and every subtraction round to the nearest
    value, ties to even. *)

Module Binary64.
Import PrimFloat.

Section Arithmetic.

Variable F : Type.
Variable zero : F.
Variables add sub div : F -> F -> F.
(** [len(ratings)], as the division takes it. *)
Variable of_len : nat -> F.

(** [sum(xs)]: the additions run from the left, starting at 0. *)
Definition sum_with (xs : list F) : F := fold_left add xs zero.

Definition mean_center_with (ratings : Dict.t (F * F)) : Dict.t (F * F) :=
  if Dict.is_empty ratings then ratings
  else
    let mean :=
      div (sum_with (map fst (Dict.values ratings)))
          (of_len (Dict.len ratings)) in
    fold_left
      (fun d '(name, (elo, sigma)) => Dict.set d name (sub elo mean, sigma))
      (Dict.items ratings) (Dict.empty _).

(** The arithmetic mean and the record the specification asks for, in
    the same arithmetic. *)
Definition mean_with (xs : list F) : F :=
  div (sum_with xs) (of_len (List.length xs)).

Definition centred_with (mean : F) (kv : string * (F * F))
  : string * (F * F) :=
  (fst kv, (sub (fst (snd kv)) mean, snd (snd kv))).

End Arithmetic.

Definition ratings_t := Dict.t (float * float).

(** The length of a dict as a [float]: the conversion is exact below
    2^53 and rounds above; a dict of 2^63 entries or more does not fit
    in memory. *)
Definition of_len (n : nat) : float :=
  PrimFloat.of_uint63 (Uint63.of_Z (Z.of_nat n)).

(** [sum] over floats, as CPython adds up to version 3.11.  From 3.12 on
    [sum] carries the rounding errors of its partial sums along; this
    makes no difference where no partial sum rounds. *)
Definition sum : list float -> float :=
  sum_with PrimFloat.zero PrimFloat.add.

Definition mean_center : ratings_t -> ratings_t :=
  mean_center_with PrimFloat.zero PrimFloat.add PrimFloat.sub PrimFloat.div
                   of_len.

Definition arithmetic_mean : list float -> float :=
  mean_with PrimFloat.zero PrimFloat.add PrimFloat.div of_len.

Definition centred : float -> string * (float * float)
                     -> string * (float * float) :=
  centred_with PrimFloat.sub.

Definition ratings_of (t : ratings_t) : list float := map fst (Dict.values t).
Definition uncertainties_of (t : ratings_t) : list float :=
  map snd (Dict.values t).


End Binary64.

(* ------------------------------------------------------------------ *)
(** ** gauntlet.py

    The command line builder of [tools/gauntlet.py].  What the script
    does to the world is kept as a list of events; [sys.exit(msg)] ends
    a call with the message it prints.  Three functions of the standard
    library are left open: the text [f"{x}"] gives for a float, [int] on
    a string, and [shlex.quote]. *)

Module Gauntlet.

(** [str(n)] for an integer: a minus sign if needed, then the digits. *)
Definition str_of_int (n : Z) : string := NilZero.string_of_int (Z.to_int n).

(** [s.split(sep)] for a separator of one character. *)
Fixpoint split_from (sep : ascii) (cur : list ascii) (s : string) : list string :=
  match s with
  | EmptyString => [Str.rev_to_string cur ""]
  | String a s' =>
      if Ascii.eqb a sep then Str.rev_to_string cur "" :: split_from sep [] s'
      else split_from sep (a :: cur) s'
  end.

Definition split (sep : ascii) (s : string) : list string := split_from sep [] s.

(** [s.split(sep, 1)]: cut at the first separator, if there is one. *)
Fixpoint split1_from (sep : ascii) (cur : list ascii) (s : string) : list string :=
  match s with
  | EmptyString => [Str.rev_to_string cur ""]
  | String a s' =>
      if Ascii.eqb a sep then [Str.rev_to_string cur ""; s']
      else split1_from sep (a :: cur) s'
  end.

Definition split1 (sep : ascii) (s : string) : list string := split1_from sep [] s.

Inductive event :=
| Printed (line : string)            (* print(...) *)
| MadeDirs (path : string)           (* os.makedirs(path, exist_ok=True) *)
| Ran (cmd : list string).           (* subprocess.run(cmd) *)

Inductive res (A : Type) :=
| Ret (a : A)
| Exit (msg : string)                (* sys.exit(msg): msg on stderr, status 1 *)
| Raise (e : string).
Arguments Ret {A} a.
Arguments Exit {A} msg.
Arguments Raise {A} e.

Definition M (A : Type) := list event -> list event * res A.

(** [xs + ys] and [xs += ys] on lists are written [List.app xs ys]. *)

Definition ret {A} (a : A) : M A := fun ev => (ev, Ret a).

Definition bind {A B} (c : M A) (k : A -> M B) : M B :=
  fun ev =>
    match c ev with
    | (ev', Ret a) => k a ev'
    | (ev', Exit msg) => (ev', Exit msg)
    | (ev', Raise e) => (ev', Raise e)
    end.

Notation "x <- c ;; k" := (bind c (fun x => k))
  (at level 62, c at next level, right associativity).
Notation "c ;; k" := (bind c (fun _ => k))
  (at level 62, right associativity).

Definition sys_exit {A} (msg : string) : M A := fun ev => (ev, Exit msg).
Definition raise {A} (e : string) : M A := fun ev => (ev, Raise e).
Definition emit (e : event) : M unit := fun ev => (List.app ev [e], Ret tt).

(** What the script asks of the machine it runs on. *)
Record world := World {
  isfile : string -> bool;               (* os.path.isfile *)
  access_x : string -> bool;             (* os.access(_, os.X_OK) *)
  stamp : string;                        (* now().strftime("%Y%m%d_%H%M%S") *)
  returncode : list string -> Z          (* subprocess.run(cmd).returncode *)
}.

(** [x if x else None] for a string that may be missing: empty counts
    as missing. *)
Definition truthy (s : option string) : option string :=
  match s with
  | Some s' => if Str.is_empty s' then None else Some s'
  | None => None
  end.

(** [(f" ({label})" if label else "")] *)
Definition label_suffix (label : option string) : string :=
  match truthy label with
  | Some l => " (" ++ l ++ ")"
  | None => ""
  end.

Section Builders.

Variable F : Type.                       (* float *)
Variable float_str : F -> string.        (* f"{x}" *)
Variable int_of_str : string -> option Z.   (* int(s); None is ValueError *)
Variable quote : string -> string.       (* shlex.quote *)

Variable w : world.

Definition require_executable (path : string) (label : option string) : M string :=
  if negb (isfile w path && access_x w path)
  then sys_exit ("❌ Not executable: " ++ path ++ label_suffix label)
  else ret path.

Definition require_file (path : string) (label : option string) : M string :=
  if negb (isfile w path)
  then sys_exit ("❌ File not found: " ++ path ++ label_suffix label)
  else ret path.

Definition run (cmd : list string) : M unit :=
  emit (Printed ("→ " ++ Str.join " " (map quote cmd))) ;;
  emit (Ran cmd) ;;
  let rc := returncode w cmd in
  if negb (rc =? 0)%Z
  then sys_exit ("❌ cutechess-cli failed with exit code " ++ str_of_int rc)
  else ret tt.

Definition ts_pgn (prefix : string) : M string :=
  let ts := stamp w in
  emit (MadeDirs "runs") ;;
  ret ("runs/" ++ prefix ++ "_" ++ ts ++ ".pgn").

Definition openings_args (path : string) (plies : Z) (policy : string)
  : list string :=
  ["-openings"; "file=" ++ path; "format=pgn"; "order=random";
   "plies=" ++ str_of_int plies; "policy=" ++ policy].

Definition adjudication_args (draw_mv draw_cnt draw_score resign_cnt
                              resign_score : Z) (maxmoves : option Z)
  : list string :=
  let out :=
    ["-draw"; "movenumber=" ++ str_of_int draw_mv;
     "movecount=" ++ str_of_int draw_cnt; "score=" ++ str_of_int draw_score;
     "-resign"; "movecount=" ++ str_of_int resign_cnt;
     "score=" ++ str_of_int resign_score] in
  match maxmoves with
  | Some n =>
      if (n =? 0)%Z then out else List.app out ["-maxmoves"; str_of_int n]
  | None => out
  end.

Record args := Args {
  runner : string;
  openings : string;
  plies : Z;
  policy : string;
  concurrency : Z;
  threads : Z;
  hash : Z;
  pgn : option string;
  pgn_style : string;
  wait : Z;
  recover : bool;
  nodes_per_move : option Z;
  st : option F;
  timemargin : option Z;
  tc : option string;
  eut : string;
  eut_name : string;
  stockfish : string;
  sf_nodes : option string;
  opponent : option (list string);
  draw_movenumber : Z;
  draw_movecount : Z;
  draw_score : Z;
  resign_movecount : Z;
  resign_score : Z;
  maxmoves : Z;
  games : Z
}.

Definition control_args (a : args) : M (list string) :=
  let base :=
    ["-each"; "proto=uci"; "ponder=false";
     "option.Hash=" ++ str_of_int (hash a);
     "option.Threads=" ++ str_of_int (threads a)] in
  match nodes_per_move a with
  | Some n => ret (List.app base ["tc=inf"; "nodes=" ++ str_of_int n])
  | None =>
      match st a with
      | Some x =>
          let base := List.app base ["st=" ++ float_str x] in
          match timemargin a with
          | Some t => ret (List.app base ["timemargin=" ++ str_of_int t])
          | None => ret base
          end
      | None =>
          match tc a with
          | Some c => ret (List.app base ["tc=" ++ c])
          | None =>
              sys_exit "❌ You must specify one control: --nodes-per-move OR --st OR --tc"
          end
      end
  end.

Definition engine_eut (name cmd_path : string) : list string :=
  ["-engine"; "name=" ++ name; "cmd=" ++ cmd_path; "proto=uci"].

Definition engine_sf_nodes (sf_path : string) (nodes_list : list Z)
  : list string :=
  fold_left
    (fun out n =>
       List.app out
         ["-engine"; "name=SF_N" ++ str_of_int n; "cmd=" ++ sf_path;
          "proto=uci"; "nodes=" ++ str_of_int n])
    nodes_list [].

(** The loop of [engine_named], from the list built so far. *)
Fixpoint engine_named_from (out : list string) (path_map : list string)
  : M (list string) :=
  match path_map with
  | [] => ret out
  | spec :: rest =>
      if negb (Str.contains "=" spec)
      then sys_exit "❌ --opponent must be of the form Name=/path/to/bin"
      else
        match split1 "=" spec with
        | [name; path] =>
            cmd <- require_executable path (Some name) ;;
            engine_named_from
              (List.app out
                 ["-engine"; "name=" ++ name; "cmd=" ++ cmd; "proto=uci"])
              rest
        | _ => raise "ValueError"
        end
  end.

Definition engine_named (path_map : list string) : M (list string) :=
  engine_named_from [] path_map.

(** [[int(x) for x in xs]] *)
Fixpoint ints_of (xs : list string) : M (list Z) :=
  match xs with
  | [] => ret []
  | x :: xs' =>
      match int_of_str x with
      | Some n => ns <- ints_of xs' ;; ret (n :: ns)
      | None => raise "ValueError"
      end
  end.

(** The test of line 177, [args.pgn-style == "min"].  It reads
    [args.pgn - style]: the difference of the attribute [pgn] and of a
    variable [style], which no line of the module binds and which is no
    builtin, so that evaluating it raises NameError. *)
Definition pgn_minus_style_is_min (a : args) : M bool := raise "NameError".

Definition main (a : args) : M unit :=
  runner <- require_executable (runner a) (Some "cutechess-cli") ;;
  openings <- require_file (openings a) (Some "openings PGN") ;;
  eut <- require_executable (eut a) (Some "EUT") ;;
  match truthy (sf_nodes a) with
  | Some _ => require_executable (stockfish a) (Some "Stockfish") ;; ret tt
  | None => ret tt
  end ;;
  pgn_path <- match truthy (pgn a) with
              | Some p => ret p
              | None => ts_pgn "gauntlet"
              end ;;
  let cmd :=
    [runner; "-tournament"; "gauntlet";
     "-concurrency"; str_of_int (concurrency a); "-pgnout"; pgn_path] in
  is_min <- pgn_minus_style_is_min a ;;
  let cmd := if is_min : bool then List.app cmd ["min"] else cmd in
  let cmd := List.app cmd (openings_args openings (plies a) (policy a)) in
  control <- control_args a ;;
  let cmd := List.app cmd control in
  let cmd := List.app cmd (engine_eut (eut_name a) eut) in
  cmd <- match truthy (sf_nodes a) with
         | Some s =>
             nodes <- ints_of (split "," s) ;;
             ret (List.app cmd (engine_sf_nodes (stockfish a) nodes))
         | None => ret cmd
         end ;;
  cmd <- match opponent a with
         | Some (spec :: specs) =>
             named <- engine_named (spec :: specs) ;; ret (List.app cmd named)
         | _ => ret cmd
         end ;;
  let cmd :=
    List.app cmd
      (adjudication_args (draw_movenumber a) (draw_movecount a)
         (draw_score a) (resign_movecount a) (resign_score a)
         (Some (maxmoves a))) in
  let cmd :=
    List.app cmd
      ["-games"; str_of_int (games a); "-repeat"; "-wait"; str_of_int (wait a)] in
  let cmd := if recover a then List.app cmd ["-recover"] else cmd in
  run cmd ;;
  emit (Printed ("✅ Wrote PGN: " ++ pgn_path)).

End Builders.

(** The entry of the command line that names an engine, and the one a
    specification [Name=path] gives rise to. *)
Definition is_name (x : string) : bool := Str.startswith "name=" x.

Definition before (sep : ascii) (s : string) : string := hd "" (split1 sep s).
Definition after (sep : ascii) (s : string) : string :=
  hd "" (tl (split1 sep s)).

Definition sf_entry (sf_path : string) (n : Z) : list string :=
  ["-engine"; "name=SF_N" ++ str_of_int n; "cmd=" ++ sf_path;
   "proto=uci"; "nodes=" ++ str_of_int n].

Definition named_entry (spec : string) : list string :=
  ["-engine"; "name=" ++ before "=" spec; "cmd=" ++ after "=" spec; "proto=uci"].

(** A specification [engine_named] accepts: it holds an equals sign and
    what follows the first one is the path of an executable file. *)
Definition accepted (w : world) (spec : string) : Prop :=
  Str.contains "=" spec = true
  /\ (isfile w (after "=" spec) && access_x w (after "=" spec)) = true.

(** The checks of lines 163 to 167 all pass. *)
Definition validated (F : Type) (w : world) (a : args F) : Prop :=
  isfile w (runner a) && access_x w (runner a) = true
  /\ isfile w (openings a) = true
  /\ isfile w (eut a) && access_x w (eut a) = true
  /\ (truthy (sf_nodes a) <> None ->
      isfile w (stockfish a) && access_x w (stockfish a) = true).

(** *** Sample data: the first example of the module's docstring, on a
    machine where every path that does not begin with [missing/] is an
    executable file *)

Definition sample_world : world :=
  World (fun p => negb (Str.startswith "missing/" p))
        (fun p => negb (Str.startswith "missing/" p))
        "20240101_120000" (fun _ => 0%Z).

Definition sample_args : args unit :=
  Args "tools/bin/cutechess-cli" "openings/neutral_50.pgn" 12 "round" 8 1 16
       None "min" 0 false (Some 15000%Z) None None None
       "engines/my_engine" "MyEngine" "engines/stockfish"
       (Some "300,1000,3000,15000") None 80 8 10 3 900 200 200.

End Gauntlet.

(* ------------------------------------------------------------------ *)
(** ** Facts about the string functions *)

Module StrFacts.
Local Open Scope list_scope.

Example splitlines_boundaries :
  Str.splitlines
    ("a" ++ String Str.CR (String Str.LF "b") ++ String Str.LF ""
     ++ String Str.LF "c" ++ String Str.CR "d" ++ String Str.LF "")%string
  = ["a"; "b"; ""; "c"; "d"].
Proof. reflexivity. Qed.

Example splitlines_empty : Str.splitlines "" = [].
Proof. reflexivity. Qed.

Example strip_blanks : Str.strip "  Engine A   " = "Engine A".
Proof. reflexivity. Qed.

Example rstrip_keeps_left : Str.rstrip "  5 3  " = "  5 3".
Proof. reflexivity. Qed.

Example contains_inside : Str.contains "Elo" "Rank Name   Elo    +    -" = true.
Proof. reflexivity. Qed.

Example contains_missing : Str.contains "Elo" "Rank Name ELO" = false.
Proof. reflexivity. Qed.

(** [xs[-n:]] is the end of [xs], all of it when [xs] is short. *)
Lemma last_n_suffix (A : Type) (n : nat) (xs : list A) :
  xs = firstn (List.length xs - n) xs ++ Str.last_n n xs.
Proof. unfold Str.last_n. symmetry. apply firstn_skipn. Qed.

Lemma last_n_length (A : Type) (n : nat) (xs : list A) :
  List.length (Str.last_n n xs) = Nat.min n (List.length xs).
Proof. unfold Str.last_n. rewrite length_skipn. lia. Qed.

Lemma last_n_short (A : Type) (n : nat) (xs : list A) :
  (List.length xs <= n)%nat -> Str.last_n n xs = xs.
Proof.
  intros H. unfold Str.last_n.
  replace (List.length xs - n)%nat with 0%nat by lia. reflexivity.
Qed.

End StrFacts.

(* ------------------------------------------------------------------ *)
(** ** Facts about dictionaries *)

Module DictFacts.
Local Open Scope list_scope.
Section DictFacts.

Variable V : Type.
Implicit Types (d : Dict.t V) (k : string) (v : V).

Lemma keys_set_absent d k v :
  ~ In k (Dict.keys d) -> Dict.set d k v = d ++ [(k, v)].
Proof.
  induction d as [|[k' v'] d IH]; simpl; intros Hk; [reflexivity|].
  destruct (String.eqb_spec k' k) as [->|Hne].
  - exfalso. apply Hk. now left.
  - rewrite IH; [reflexivity|]. intros Hin. apply Hk. now right.
Qed.

Lemma keys_set_present d k v :
  In k (Dict.keys d) -> Dict.keys (Dict.set d k v) = Dict.keys d.
Proof.
  induction d as [|[k' v'] d IH]; simpl; intros Hk; [contradiction|].
  destruct (String.eqb_spec k' k) as [->|Hne]; simpl; [reflexivity|].
  f_equal. apply IH. destruct Hk as [Hk|Hk]; [contradiction|assumption].
Qed.

Lemma keys_set d k v :
  Dict.keys (Dict.set d k v)
  = if in_dec string_dec k (Dict.keys d) then Dict.keys d
    else Dict.keys d ++ [k].
Proof.
  destruct (in_dec string_dec k (Dict.keys d)) as [Hin|Hnin].
  - now apply keys_set_present.
  - rewrite keys_set_absent by assumption.
    unfold Dict.keys. now rewrite map_app.
Qed.

Lemma wf_set d k v : Dict.wf d -> Dict.wf (Dict.set d k v).
Proof.
  unfold Dict.wf. intros Hd. rewrite keys_set.
  destruct (in_dec string_dec k (Dict.keys d)) as [Hin|Hnin]; [assumption|].
  apply NoDup_app; [assumption | repeat constructor; intros [] | ].
  intros x Hx [<-|[]]. contradiction.
Qed.

Lemma get_set_same d k v : Dict.get (Dict.set d k v) k = Some v.
Proof.
  induction d as [|[k' v'] d IH]; simpl.
  - now rewrite String.eqb_refl.
  - destruct (String.eqb_spec k' k) as [->|Hne]; simpl.
    + now rewrite String.eqb_refl.
    + destruct (String.eqb_spec k' k); [contradiction|assumption].
Qed.

Lemma get_set_other d k k' v :
  k' <> k -> Dict.get (Dict.set d k v) k' = Dict.get d k'.
Proof.
  intros Hne. induction d as [|[k0 v0] d IH]; simpl.
  - destruct (String.eqb_spec k k'); [congruence|reflexivity].
  - destruct (String.eqb_spec k0 k) as [->|Hne0]; simpl.
    + destruct (String.eqb_spec k k'); [congruence|reflexivity].
    + destruct (String.eqb_spec k0 k'); [reflexivity|assumption].
Qed.

Lemma in_set d k v k' v' :
  In (k', v') (Dict.set d k v) -> (k' = k /\ v' = v) \/ In (k', v') d.
Proof.
  induction d as [|[k0 v0] d IH]; simpl.
  - intros [H|[]]. left. now inversion H.
  - destruct (String.eqb_spec k0 k) as [->|Hne]; simpl.
    + intros [H|H]; [left; now inversion H | right; now right].
    + intros [H|H]; [right; now left|].
      destruct (IH H) as [?|?]; [now left | right; now right].
Qed.

Lemma get_in d k v : Dict.wf d -> In (k, v) d -> Dict.get d k = Some v.
Proof.
  unfold Dict.wf. induction d as [|[k0 v0] d IH]; simpl; [contradiction|].
  intros Hnd [H|H].
  - inversion H; subst. now rewrite String.eqb_refl.
  - inversion Hnd as [|? ? Hnin Hnd']; subst.
    destruct (String.eqb_spec k0 k) as [->|Hne].
    + exfalso. apply Hnin. change k with (fst (k, v)). now apply in_map.
    + now apply IH.
Qed.

Lemma set_not_empty d k v : Dict.set d k v <> [].
Proof.
  destruct d as [|[k0 v0] d]; simpl; [discriminate|].
  destruct (String.eqb k0 k); discriminate.
Qed.

(** Filling an empty dictionary from pairs whose keys differ keeps the
    pairs as they come. *)
Lemma fold_set_fresh (W : Type) (f : string * W -> V) (l : list (string * W))
      (acc : Dict.t V) :
  NoDup (Dict.keys acc ++ map fst l) ->
  fold_left (fun d kv => Dict.set d (fst kv) (f kv)) l acc
  = acc ++ map (fun kv => (fst kv, f kv)) l.
Proof.
  revert acc. induction l as [|[k w] l IH]; intros acc Hnd; simpl.
  - now rewrite app_nil_r.
  - rewrite keys_set_absent.
    + rewrite IH.
      * now rewrite <- app_assoc.
      * unfold Dict.keys in *. rewrite map_app, <- app_assoc. exact Hnd.
    + apply NoDup_remove_2 in Hnd. intros Hin. apply Hnd.
      apply in_or_app. now left.
Qed.

End DictFacts.
End DictFacts.

(* ------------------------------------------------------------------ *)
(** ** Facts about the matcher *)

Module ReFacts.
Import Re.
Local Open Scope string_scope.

Lemma length_append (u v : string) :
  String.length (u ++ v) = (String.length u + String.length v)%nat.
Proof. induction u as [|a u IH]; simpl; [reflexivity | now rewrite IH]. Qed.

Lemma substring_prefix (u v : string) :
  substring 0 (String.length u) (u ++ v) = u.
Proof.
  induction u as [|a u IH]; simpl.
  - destruct v; reflexivity.
  - now rewrite IH.
Qed.

Lemma consumed_app (u v : string) : consumed (u ++ v) v = u.
Proof.
  unfold consumed. rewrite length_append.
  replace (String.length u + String.length v - String.length v)%nat
    with (String.length u) by lia.
  apply substring_prefix.
Qed.

Lemma append_empty_r (u : string) : u ++ "" = u.
Proof. induction u as [|a u IH]; simpl; [reflexivity | now rewrite IH]. Qed.

Lemma append_assoc (u v w : string) : (u ++ v) ++ w = u ++ (v ++ w).
Proof. induction u as [|a u IH]; simpl; [reflexivity | now rewrite IH]. Qed.

Lemma repeat_from_sound (k : cls) (s : string) :
  forall p ps, In ps (repeat_from k p s) ->
  exists w, s = w ++ snd ps /\ all_cls k w = true.
Proof.
  induction s as [|a s IH]; intros p ps; simpl.
  - intros [<-|[]]. exists "". now split.
  - intros [<-|Hin]; [exists ""; now split|].
    destruct (cls_match k a) eqn:E; [|contradiction].
    destruct (IH _ _ Hin) as [w [Hs Hw]].
    exists (String a w). simpl. rewrite E, Hw, <- Hs. now split.
Qed.

Lemma plus_from_sound (k : cls) (s : string) (ps : option ascii * string) :
  In ps (plus_from k s) ->
  exists w, s = w ++ snd ps /\ w <> "" /\ all_cls k w = true.
Proof.
  destruct s as [|a s]; simpl; [contradiction|].
  destruct (cls_match k a) eqn:E; [|contradiction].
  intros Hin. destruct (repeat_from_sound _ _ _ _ Hin) as [w [Hs Hw]].
  exists (String a w). simpl. rewrite E, Hw, <- Hs.
  repeat split. discriminate.
Qed.

(** Every state [run] reaches is explained by [sem]. *)
Theorem run_sound (r : regex) :
  forall st st', In st' (run r st) ->
  exists w, rest st = w ++ rest st' /\ sem r (groups st) w (groups st').
Proof.
  induction r as [ | | | c | k | k | k | r IH | r1 IH1 r2 IH2 | n r IH];
    intros st st'; cbn [run sem].
  - destruct (prev st); [contradiction|]. intros [<-|[]]. now exists "".
  - destruct (rest st) as [|c [|d s]] eqn:E;
      try destruct (Ascii.eqb c Str.LF); try contradiction;
      intros [<-|[]]; exists ""; now rewrite E.
  - destruct (xorb _ _); [|contradiction]. intros [<-|[]]. now exists "".
  - destruct (rest st) as [|a s] eqn:E; [contradiction|].
    destruct (Ascii.eqb_spec a c) as [->|]; [|contradiction].
    intros [<-|[]]. exists (String c ""). now split.
  - intros Hin. apply in_map_iff in Hin. destruct Hin as [ps [<- Hin]].
    apply in_rev in Hin.
    destruct (repeat_from_sound _ _ _ _ Hin) as [w [Hs Hw]].
    exists w. now split.
  - intros Hin. apply in_map_iff in Hin. destruct Hin as [ps [<- Hin]].
    apply in_rev in Hin.
    destruct (plus_from_sound _ _ _ Hin) as [w [Hs [Hne Hw]]].
    exists w. now repeat split.
  - intros Hin. apply in_map_iff in Hin. destruct Hin as [ps [<- Hin]].
    destruct (plus_from_sound _ _ _ Hin) as [w [Hs [Hne Hw]]].
    exists w. now repeat split.
  - intros Hin. apply in_app_or in Hin. destruct Hin as [Hin|[<-|[]]].
    + destruct (IH _ _ Hin) as [w [Hs Hw]]. exists w. split; [exact Hs|].
      now right.
    + exists "". split; [reflexivity | now left].
  - intros Hin. apply in_flat_map in Hin. destruct Hin as [mid [H1 H2]].
    destruct (IH1 _ _ H1) as [w1 [Hs1 Hw1]].
    destruct (IH2 _ _ H2) as [w2 [Hs2 Hw2]].
    exists (w1 ++ w2). split.
    + now rewrite Hs1, Hs2, append_assoc.
    + exists w1, w2, (groups mid). now repeat split.
  - intros Hin. apply in_map_iff in Hin. destruct Hin as [st1 [<- Hin]].
    destruct (IH _ _ Hin) as [w [Hs Hw]]. exists w. cbn [rest groups].
    split; [exact Hs|]. exists (groups st1). split; [exact Hw|].
    rewrite Hs. now rewrite consumed_app.
Qed.

Lemma match_sound (r : regex) (s : string) (m : list (nat * string)) :
  match_ r s = Some m -> exists w, sem r [] w m.
Proof.
  unfold match_. destruct (run r (start s)) as [|st l] eqn:E; [discriminate|].
  intros [= <-].
  destruct (@run_sound r (start s) st) as [w [_ Hw]].
  - rewrite E. now left.
  - now exists w.
Qed.

End ReFacts.

(* ------------------------------------------------------------------ *)
(** ** Facts about [float] on the captured numerals *)

Module FloatFacts.
Import Re ReFacts.
Local Open Scope string_scope.

Lemma digit_val_nonneg (c : ascii) :
  Str.isdigit c = true -> (0 <= Str.digit_val c)%Z.
Proof.
  unfold Str.isdigit, Str.between, Str.digit_val. intros H.
  apply andb_true_iff in H. destruct H as [H _].
  apply N.leb_le in H. lia.
Qed.

Lemma digits_from_app (w s : string) :
  all_cls Digit w = true ->
  forall acc n,
    Str.digits_from acc n (w ++ s)
    = Str.digits_from (Str.digits_value acc w) (n + String.length w) s.
Proof.
  induction w as [|c w IH]; simpl; intros Hw acc n.
  - now rewrite Nat.add_0_r.
  - apply andb_true_iff in Hw. destruct Hw as [Hc Hw].
    rewrite Hc, IH by exact Hw. now rewrite Nat.add_succ_r.
Qed.

Lemma digits_value_nonneg (w : string) :
  all_cls Digit w = true ->
  forall acc, (0 <= acc)%Z -> (0 <= Str.digits_value acc w)%Z.
Proof.
  induction w as [|c w IH]; cbn [all_cls Str.digits_value];
    intros Hw acc Hacc; [exact Hacc|].
  apply andb_true_iff in Hw. destruct Hw as [Hc Hw].
  apply IH; [exact Hw|]. pose proof (digit_val_nonneg _ Hc). lia.
Qed.

Lemma length_digits (w : string) :
  digits w -> exists n, String.length w = S n.
Proof. intros [Hne _]. destruct w; [congruence | now eexists]. Qed.

Lemma Q2Qc_nonneg (m : Z) (d : positive) : (0 <= m)%Z -> (0 <= Q2Qc (m # d))%Qc.
Proof.
  intros Hm. unfold Qcle. cbn [this Q2Qc]. rewrite !Qred_correct.
  unfold Qle. simpl. lia.
Qed.

Lemma unsigned_float_int (ip : string) :
  digits ip -> exists q, Str.unsigned_float ip = Some q /\ (0 <= q)%Qc.
Proof.
  intros Hd. destruct (length_digits Hd) as [n Hn]. destruct Hd as [_ Hd].
  unfold Str.unsigned_float.
  rewrite <- (append_empty_r ip), (@digits_from_app ip "" Hd). cbn [Str.digits_from].
  rewrite Hn. cbn [Nat.add]. eexists. split; [reflexivity|].
  apply Q2Qc_nonneg. now apply digits_value_nonneg.
Qed.

Lemma unsigned_float_frac (ip fp : string) :
  digits ip -> digits fp ->
  exists q, Str.unsigned_float (ip ++ "." ++ fp) = Some q /\ (0 <= q)%Qc.
Proof.
  intros Hi Hf.
  destruct (length_digits Hi) as [n Hn]. destruct Hi as [_ Hi].
  destruct (length_digits Hf) as [k Hk]. destruct Hf as [_ Hf].
  unfold Str.unsigned_float.
  rewrite (@digits_from_app ip ("." ++ fp) Hi). cbn [append Str.digits_from].
  change (Str.isdigit ".") with false. cbv iota. rewrite Hn. cbn [Nat.add].
  change (Ascii.eqb "." ".") with true. cbv iota.
  rewrite <- (append_empty_r fp), (@digits_from_app fp "" Hf). cbn [Str.digits_from].
  rewrite Hk. cbn [Nat.add]. eexists. split; [reflexivity|].
  apply Q2Qc_nonneg. apply digits_value_nonneg; [exact Hf|].
  now apply digits_value_nonneg.
Qed.

Lemma unsigned_float_total (w : string) :
  unsigned_numeral w ->
  exists q, Str.unsigned_float w = Some q /\ (0 <= q)%Qc.
Proof.
  intros [ip [Hi [->|[fp [Hf ->]]]]].
  - now apply unsigned_float_int.
  - now apply unsigned_float_frac.
Qed.

Lemma unsigned_head (w : string) :
  unsigned_numeral w ->
  exists c w', w = String c w' /\ Str.isdigit c = true.
Proof.
  intros [ip [[Hne Hd] Hw]]. destruct ip as [|c ip]; [congruence|].
  simpl in Hd. apply andb_true_iff in Hd. destruct Hd as [Hc _].
  destruct Hw as [->|[fp [_ ->]]]; simpl; eauto.
Qed.

Lemma minus_not_digit (c : ascii) :
  Str.isdigit c = true -> Ascii.eqb c "-" = false.
Proof.
  intros Hc. destruct (Ascii.eqb_spec c "-") as [->|]; [|reflexivity].
  discriminate Hc.
Qed.

(** [float] accepts the unsigned numerals and answers a value that is
    not negative. *)
Lemma float_unsigned (w : string) :
  unsigned_numeral w -> exists q, Str.float w = Some q /\ (0 <= q)%Qc.
Proof.
  intros Hu. destruct (unsigned_head Hu) as [c [w' [Hw Hc]]].
  destruct (unsigned_float_total Hu) as [q [Hq Hpos]].
  exists q. split; [|exact Hpos].
  subst w. unfold Str.float. now rewrite (minus_not_digit _ Hc).
Qed.

(** [float] accepts the signed numerals. *)
Lemma float_signed (w : string) :
  signed_numeral w -> exists q, Str.float w = Some q.
Proof.
  intros [Hu|[u [Hu ->]]].
  - destruct (float_unsigned Hu) as [q [Hq _]]. now exists q.
  - destruct (unsigned_float_total Hu) as [q [Hq _]].
    exists (- q)%Qc. cbn [append Str.float].
    change (Ascii.eqb "-" "-") with true. cbv iota. now rewrite Hq.
Qed.

End FloatFacts.

(* ------------------------------------------------------------------ *)
(** ** Facts about the parser *)

Module ParseFacts.
Import Re ReFacts FloatFacts Rate.
Local Open Scope string_scope.
Local Open Scope list_scope.

Lemma sem_unsigned (gs gs' : list (nat * string)) (w : string) :
  sem unsigned_num gs w gs' -> gs' = gs /\ unsigned_numeral w.
Proof.
  unfold unsigned_num. cbn [sem].
  intros [w1 [w2 [gs1 [-> [[Hne [Hd ->]] Hopt]]]]].
  destruct Hopt as [[-> ->]|[w3 [w4 [gs2 [-> [[-> ->] [Hne4 [Hd4 ->]]]]]]]].
  - split; [reflexivity|]. exists w1. split; [now split|].
    left. apply append_empty_r.
  - split; [reflexivity|]. exists w1. split; [now split|].
    right. exists w4. split; [now split | reflexivity].
Qed.

Lemma sem_signed (gs gs' : list (nat * string)) (w : string) :
  sem signed_num gs w gs' -> gs' = gs /\ signed_numeral w.
Proof.
  unfold signed_num. cbn [sem].
  intros [w1 [w2 [gs1 [-> [Hopt Hu]]]]].
  apply sem_unsigned in Hu. destruct Hu as [-> Hu].
  destruct Hopt as [[-> ->]|[-> ->]].
  - split; [reflexivity | now left].
  - split; [reflexivity|]. right. now exists w2.
Qed.

Ltac open_sem H :=
  cbn [sem] in H; decompose [ex and] H; clear H; subst;
  repeat match goal with
         | H : sem signed_num _ _ _ |- _ =>
             apply sem_signed in H; destruct H as [-> H]
         | H : sem unsigned_num _ _ _ |- _ =>
             apply sem_unsigned in H; destruct H as [-> H]
         end.

Lemma pat_cols_captured (w : string) (m : list (nat * string)) :
  sem pat_cols [] w m -> well_captured m.
Proof.
  unfold pat_cols. intros H. open_sem H.
  do 3 eexists. split; [reflexivity|]. auto.
Qed.

Lemma pat_pm_captured (w : string) (m : list (nat * string)) :
  sem pat_pm [] w m -> well_captured m.
Proof.
  unfold pat_pm. intros H. open_sem H.
  do 3 eexists. split; [reflexivity|]. auto.
Qed.

Lemma pat_fb_captured (w : string) (m : list (nat * string)) :
  sem pat_fb [] w m -> well_captured m.
Proof.
  unfold pat_fb. intros H. open_sem H.
  do 3 eexists. split; [reflexivity|]. auto.
Qed.

(** Whichever pattern matched, the three groups are there and the last
    two are numerals. *)
Lemma first_match_captured (ln : string) (m : list (nat * string)) :
  first_match ln = Some m -> well_captured m.
Proof.
  unfold first_match, or_else.
  destruct (match_ pat_cols ln) as [ma|] eqn:Ea.
  { intros [= <-]. destruct (match_sound _ _ Ea) as [w Hw].
    exact (pat_cols_captured Hw). }
  destruct (match_ pat_pm ln) as [mb|] eqn:Eb.
  { intros [= <-]. destruct (match_sound _ _ Eb) as [w Hw].
    exact (pat_pm_captured Hw). }
  intros Ec. destruct (match_sound _ _ Ec) as [w Hw].
  exact (pat_fb_captured Hw).
Qed.

(** Lines 67 to 69 never raise on a match, and the uncertainty they read
    is not negative. *)
Lemma record_of_captured (m : list (nat * string)) :
  well_captured m ->
  exists g1 elo err,
    Re.group m 1 = Some g1 /\ g1 <> ""
    /\ record_of m = Ret (Str.strip g1, (elo, err)) /\ (0 <= err)%Qc.
Proof.
  intros [g1 [g2 [g3 [-> [Hne [H2 H3]]]]]].
  destruct (float_signed H2) as [elo Helo].
  destruct (float_unsigned H3) as [err [Herr Hpos]].
  exists g1, elo, err. unfold record_of, group_text, to_float.
  cbn [Re.group Nat.eqb res_bind]. rewrite Helo, Herr. cbn [res_bind].
  auto.
Qed.

Lemma extract_cases (ln : string) :
  extract ln = Ret None
  \/ exists rec, extract ln = Ret (Some rec) /\ read_from [ln] rec.
Proof.
  unfold extract.
  destruct (Str.is_empty (Str.strip (Str.rstrip ln))); [now left|].
  destruct (first_match (Str.rstrip ln)) as [m|] eqn:E; [|now left].
  destruct (record_of_captured (first_match_captured _ E))
    as [g1 [elo [err [Hg [Hne [Hrec Hpos]]]]]].
  right. exists (Str.strip g1, (elo, err)). rewrite Hrec. cbn [res_bind].
  split; [reflexivity|]. split; [exact Hpos|].
  exists ln, m, g1. cbn [fst]. repeat split; auto. now left.
Qed.

Lemma read_from_incl (l1 l2 : list string) (rec : string * (Qc * Qc)) :
  incl l1 l2 -> read_from l1 rec -> read_from l2 rec.
Proof.
  intros Hincl [Hpos [ln [m [g1 [Hin H]]]]]. split; [exact Hpos|].
  exists ln, m, g1. split; [now apply Hincl | exact H].
Qed.

(** The loop: it ends with a table, whose keys differ, and whose records
    are either those it started with or read from a line. *)
Lemma scan_lines_inv (lines : list string) :
  forall ratings : ratings_t,
  Dict.wf ratings ->
  exists ratings',
    scan_lines ratings lines = Ret ratings'
    /\ Dict.wf ratings'
    /\ (forall rec, In rec ratings' -> In rec ratings \/ read_from lines rec).
Proof.
  induction lines as [|ln lines IH]; intros ratings Hwf; cbn [scan_lines].
  - exists ratings. auto.
  - unfold scan_line.
    destruct (extract_cases ln) as [->|[[name v] [-> Hread]]]; cbn [res_bind].
    + destruct (IH ratings Hwf) as [r' [Hr' [Hwf' Hin']]].
      exists r'. repeat split; auto.
      intros rec Hrec. destruct (Hin' rec Hrec) as [?|?]; [now left|].
      right. apply read_from_incl with lines; [|assumption].
      now apply incl_tl, incl_refl.
    + destruct (IH (Dict.set ratings name v) (DictFacts.wf_set name v Hwf))
        as [r' [Hr' [Hwf' Hin']]].
      exists r'. repeat split; auto.
      intros [n' v'] Hrec. destruct (Hin' _ Hrec) as [Hset|Hrd].
      * apply DictFacts.in_set in Hset. destruct Hset as [[-> ->]|?].
        -- right. apply read_from_incl with [ln]; [|assumption].
           intros x [<-|[]]. now left.
        -- now left.
      * right. apply read_from_incl with lines; [|assumption].
        now apply incl_tl, incl_refl.
Qed.

(** *** [parse_ratings] as a whole *)

Lemma in_skipn (A : Type) (n : nat) (l : list A) (x : A) :
  In x (skipn n l) -> In x l.
Proof.
  intros H. rewrite <- (firstn_skipn n l). apply in_or_app. now right.
Qed.

Lemma parse_ratings_unfold (output : string) (w : io) :
  parse_ratings output w
  = match scan_lines (Dict.empty _) (scanned_lines output) with
    | Ret t =>
        if Dict.is_empty t
        then (IO (stdout w) (stderr w ++ [parse_failure_message output]), Exit 1)
        else (w, Ret t)
    | Exit code => (w, Exit code)
    | Raise e => (w, Raise e)
    end.
Proof.
  unfold parse_ratings, scanned_lines, bind, lift.
  destruct (scan_lines _ _) as [t| |]; try reflexivity.
  destruct t; reflexivity.
Qed.

(** The loop ends well on every text. *)
Lemma scan_output (output : string) :
  exists t,
    scan_lines (Dict.empty _) (scanned_lines output) = Ret t
    /\ Dict.wf t
    /\ (forall rec, In rec t -> read_from (Str.splitlines output) rec).
Proof.
  destruct (@scan_lines_inv (scanned_lines output) (Dict.empty _))
    as [t [Ht [Hwf Hin]]]; [constructor|].
  exists t. split; [exact Ht|]. split; [exact Hwf|]. intros rec Hrec.
  destruct (Hin rec Hrec) as [[]|Hrd].
  apply read_from_incl with (scanned_lines output); [|exact Hrd].
  intros x. apply in_skipn.
Qed.

Lemma parse_ratings_ret (output : string) (t : ratings_t) :
  scan_lines (Dict.empty _) (scanned_lines output) = Ret t ->
  t <> [] ->
  forall w, parse_ratings output w = (w, Ret t).
Proof.
  intros Hscan Hne w. rewrite parse_ratings_unfold, Hscan.
  destruct t; [congruence | reflexivity].
Qed.

Lemma parse_ratings_inv (output : string) (w w' : io) (t : ratings_t) :
  parse_ratings output w = (w', Ret t) ->
  w' = w /\ t <> [] /\ scan_lines (Dict.empty _) (scanned_lines output) = Ret t.
Proof.
  rewrite parse_ratings_unfold.
  destruct (scan_lines _ _) as [t0| |]; try discriminate.
  destruct t0 as [|kv t0]; cbn [Dict.is_empty]; [discriminate|].
  intros [= <- <-]. repeat split. discriminate.
Qed.

Lemma scan_lines_unmatched (lines : list string) (ratings : ratings_t) :
  (forall ln, In ln lines -> first_match (Str.rstrip ln) = None) ->
  scan_lines ratings lines = Ret ratings.
Proof.
  induction lines as [|ln lines IH]; intros H; cbn [scan_lines]; [reflexivity|].
  unfold scan_line, extract. rewrite (H ln (or_introl eq_refl)).
  destruct (Str.is_empty _); cbn [res_bind]; apply IH;
    intros l Hl; apply H; now right.
Qed.

Lemma scan_lines_app (l1 l2 : list string) (ratings : ratings_t) :
  scan_lines ratings (l1 ++ l2)
  = res_bind (scan_lines ratings l1) (fun r => scan_lines r l2).
Proof.
  revert ratings. induction l1 as [|ln l1 IH]; intros ratings; cbn [app scan_lines].
  - reflexivity.
  - destruct (scan_line ratings ln); cbn [res_bind]; auto.
Qed.

(** Lines that do not yield [name] leave its entry alone. *)
Lemma scan_lines_keep (name : string) (lines : list string) :
  (forall ln v, In ln lines -> extract ln <> Ret (Some (name, v))) ->
  forall ratings t,
    scan_lines ratings lines = Ret t -> Dict.get t name = Dict.get ratings name.
Proof.
  induction lines as [|ln lines IH]; intros H ratings t; cbn [scan_lines].
  - now intros [= <-].
  - unfold scan_line.
    destruct (extract ln) as [[[n v]|]| |] eqn:E; cbn [res_bind];
      try discriminate.
    + intros Hscan. rewrite (IH (fun l v' Hl => H l v' (or_intror Hl)) _ _ Hscan).
      apply DictFacts.get_set_other. intros ->.
      exact (H ln v (or_introl eq_refl) E).
    + apply IH. intros l v' Hl. apply H. now right.
Qed.

Lemma scan_lines_last (name : string) (v : Qc * Qc)
      (before after : list string) (ln : string) (ratings t : ratings_t) :
  extract ln = Ret (Some (name, v)) ->
  (forall ln' v', In ln' after -> extract ln' <> Ret (Some (name, v'))) ->
  scan_lines ratings (before ++ ln :: after) = Ret t ->
  Dict.get t name = Some v.
Proof.
  intros Hln Hafter. rewrite scan_lines_app.
  destruct (scan_lines ratings before) as [r1| |]; cbn [res_bind scan_lines];
    try discriminate.
  unfold scan_line. rewrite Hln. cbn [res_bind]. intros Hscan.
  rewrite (@scan_lines_keep name after Hafter _ _ Hscan).
  apply DictFacts.get_set_same.
Qed.

Lemma in_get (V : Type) (d : Dict.t V) (k : string) (v : V) :
  Dict.get d k = Some v -> In (k, v) d.
Proof.
  induction d as [|[k0 v0] d IH]; simpl; [discriminate|].
  destruct (String.eqb_spec k0 k) as [->|Hne].
  - intros [= ->]. now left.
  - intros H. right. now apply IH.
Qed.

Lemma Qc_this_inj (x y : Qc) : this x = this y -> x = y.
Proof. intros H. apply Qc_is_canon. now rewrite H. Qed.

Ltac table_eq :=
  vm_compute;
  repeat first [ reflexivity | apply Qc_this_inj; reflexivity | f_equal ].

(** C2. The loop body tries [pat_cols], then [pat_pm], then [pat_fb] on a
    line that is not blank, and stores the record of the first of them
    that matches.  ["1  EngineA  120  35"] is matched by [pat_cols] and
    gives EngineA, 120, 35, although [pat_fb] matches it too, with another
    name; ["EngineB : 85.5 +/- 12.0"] is not matched by [pat_cols], is
    matched by [pat_pm], and gives EngineB, 85.5, 12. *)
Theorem rules_in_order (ratings : ratings_t) (ln : string) (w : io) :
  first_match ln
  = match match_ pat_cols ln with
    | Some m => Some m
    | None =>
        match match_ pat_pm ln with
        | Some m => Some m
        | None => match_ pat_fb ln
        end
    end
  /\ scan_line ratings ln
     = (if Str.is_empty (Str.strip (Str.rstrip ln)) then Ret ratings
        else by_first_rule ratings (Str.rstrip ln))
  /\ (match_ pat_cols "1  EngineA  120  35"
      = Some [(3%nat, "35"); (2%nat, "120"); (1%nat, "EngineA")]
      /\ match_ pat_fb "1  EngineA  120  35"
         = Some [(3%nat, "35"); (2%nat, "120"); (1%nat, "1  EngineA")]
      /\ parse_ratings "1  EngineA  120  35" w
         = (w, Ret [("EngineA", (Q2Qc 120, Q2Qc 35))]))
  /\ (match_ pat_cols "EngineB : 85.5 +/- 12.0" = None
      /\ match_ pat_pm "EngineB : 85.5 +/- 12.0"
         = Some [(3%nat, "12.0"); (2%nat, "85.5"); (1%nat, "EngineB")]
      /\ parse_ratings "EngineB : 85.5 +/- 12.0" w
         = (w, Ret [("EngineB", (Q2Qc (171 # 2), Q2Qc 12))])).
Proof.
  split; [|split; [|split]].
  - unfold first_match, or_else.
    destruct (match_ pat_cols ln); [reflexivity|].
    destruct (match_ pat_pm ln); reflexivity.
  - unfold scan_line, extract, by_first_rule, first_match, or_else.
    destruct (Str.is_empty _); [reflexivity|].
    destruct (match_ pat_cols _) as [m|];
      [|destruct (match_ pat_pm _) as [m|];
        [|destruct (match_ pat_fb _) as [m|]; [|reflexivity]]];
      destruct (record_of m) as [[n v]| |]; reflexivity.
  - split; [vm_compute; reflexivity|]. split; [vm_compute; reflexivity|].
    apply parse_ratings_ret; [table_eq | discriminate].
  - split; [vm_compute; reflexivity|]. split; [vm_compute; reflexivity|].
    apply parse_ratings_ret; [table_eq | discriminate].
Qed.

(** C3. When no line of the text is matched by any of the patterns,
    [parse_ratings] prints on the error channel the message that carries
    [lines[-40:]], joined by newlines, and leaves with status 1; these
    are the last 40 lines of the text, or all of them when there are
    fewer.  And whatever the text, a table that [parse_ratings] returns
    is not empty. *)
Theorem parse_failure (output : string) (w : io) :
  (forall ln, In ln (Str.splitlines output) ->
              first_match (Str.rstrip ln) = None) ->
  parse_ratings output w
  = (IO (stdout w)
        (stderr w
         ++ [CouldNotParse
               (Str.join nl (Str.last_n 40 (Str.splitlines output)))]),
     Exit 1)
  /\ (exists before,
        Str.splitlines output
        = before ++ Str.last_n 40 (Str.splitlines output)
        /\ List.length (Str.last_n 40 (Str.splitlines output))
           = Nat.min 40 (List.length (Str.splitlines output)))
  /\ (forall output' w0 w' t,
        parse_ratings output' w0 = (w', Ret t) -> t <> []).
Proof.
  intros Hnone. split; [|split].
  - rewrite parse_ratings_unfold, scan_lines_unmatched; [reflexivity|].
    intros ln Hin. apply Hnone. revert Hin. apply in_skipn.
  - eexists. split; [apply StrFacts.last_n_suffix | apply StrFacts.last_n_length].
  - intros output' w0 w' t H. now apply parse_ratings_inv in H.
Qed.

Lemma parse_failure_witness :
  parse_ratings (two_lines "ResultSet-EloRating>" "no games") (IO [] [])
  = (IO [] [CouldNotParse (two_lines "ResultSet-EloRating>" "no games")],
     Exit 1).
Proof.
  refine (proj1 (@parse_failure
    (two_lines "ResultSet-EloRating>" "no games") (IO [] []) _)).
  intros ln Hin. vm_compute in Hin.
  destruct Hin as [<-|[<-|[]]]; vm_compute; reflexivity.
Defined.

(** C7. In the table [parse_ratings] returns, the entry of a name is the
    record of the last visited line that yields that name, and the name
    has no other entry.  ["EngineA 10 5"] followed by ["EngineA 20 3"]
    gives the single record EngineA, 20, 3. *)
Theorem last_write_wins (output : string) (w w' : io) (t : ratings_t) :
  parse_ratings output w = (w', Ret t) ->
  (forall before ln after name v,
      scanned_lines output = before ++ ln :: after ->
      extract ln = Ret (Some (name, v)) ->
      (forall ln' v', In ln' after -> extract ln' <> Ret (Some (name, v'))) ->
      In (name, v) t /\ forall v', In (name, v') t -> v' = v)
  /\ parse_ratings (two_lines "EngineA 10 5" "EngineA 20 3") w
     = (w, Ret [("EngineA", (Q2Qc 20, Q2Qc 3))]).
Proof.
  intros Hparse. split.
  - apply parse_ratings_inv in Hparse. destruct Hparse as [_ [_ Hscan]].
    destruct (scan_output output) as [t' [Ht' [Hwf _]]].
    rewrite Hscan in Ht'. injection Ht' as <-.
    intros before ln after name v Hsplit Hln Hafter.
    rewrite Hsplit in Hscan.
    pose proof (@scan_lines_last name v before after ln _ t Hln Hafter Hscan)
      as Hget.
    split; [now apply in_get|].
    intros v' Hin'. apply DictFacts.get_in in Hin'; [congruence | exact Hwf].
  - apply parse_ratings_ret; [table_eq | discriminate].
Qed.

Lemma last_write_wins_witness :
  In ("EngineA", (Q2Qc 20, Q2Qc 3)) [("EngineA", (Q2Qc 20, Q2Qc 3))].
Proof.
  refine (proj1 (proj1 (@last_write_wins
    (two_lines "EngineA 10 5" "EngineA 20 3") (IO [] []) (IO [] [])
    [("EngineA", (Q2Qc 20, Q2Qc 3))] _)
    ["EngineA 10 5"] "EngineA 20 3" [] "EngineA" (Q2Qc 20, Q2Qc 3) _ _ _)).
  - vm_compute. reflexivity.
  - vm_compute. reflexivity.
  - vm_compute. reflexivity.
  - intros ln' v' [].
Defined.

(** X24. In a table [parse_ratings] returns the names differ from one
    another, and every record has an uncertainty that is not negative and
    a name that is the stripped text of a first group, not empty before
    stripping, matched on a line of the text. *)
Theorem parsed_records (output : string) (w w' : io) (t : ratings_t) :
  parse_ratings output w = (w', Ret t) ->
  NoDup (Dict.keys t)
  /\ forall name elo err,
       In (name, (elo, err)) t ->
       (0 <= err)%Qc
       /\ exists ln m g1,
            In ln (Str.splitlines output)
            /\ first_match (Str.rstrip ln) = Some m
            /\ Re.group m 1 = Some g1 /\ g1 <> ""
            /\ name = Str.strip g1.
Proof.
  intros Hparse. apply parse_ratings_inv in Hparse.
  destruct Hparse as [_ [_ Hscan]].
  destruct (scan_output output) as [t' [Ht' [Hwf Hrd]]].
  rewrite Hscan in Ht'. injection Ht' as <-.
  split; [exact Hwf|]. intros name elo err Hin. exact (Hrd _ Hin).
Qed.

Lemma parsed_records_witness :
  NoDup (Dict.keys [("EngineA", (Q2Qc 20, Q2Qc 3))]).
Proof.
  refine (proj1 (@parsed_records
    (two_lines "EngineA 10 5" "EngineA 20 3") (IO [] []) (IO [] [])
    [("EngineA", (Q2Qc 20, Q2Qc 3))] _)).
  vm_compute. reflexivity.
Defined.

(** C6. The parser stores a record with the empty name for the line
    ["  5 3"].  The patterns ask for a name of one character at least,
    [(.+?)], and the name is stripped afterwards; but [pat_fb] matches
    this line only once its leading [\s*] has given both blanks back, with
    a first group that holds one blank, and nothing looks at the name
    once it is stripped. *)
Lemma parsed_empty_name :
  match_ pat_fb "  5 3" = Some [(3%nat, "3"); (2%nat, "5"); (1%nat, " ")]
  /\ parse_ratings "  5 3" (IO [] [])
     = (IO [] [], Ret [("", (Q2Qc 5, Q2Qc 3))]).
Proof.
  split; [vm_compute; reflexivity|].
  apply parse_ratings_ret; [table_eq | discriminate].
Qed.

End ParseFacts.

(* ------------------------------------------------------------------ *)
(** ** Facts about [mean_center] *)

Module CenterFacts.
Import Rate.
Local Open Scope list_scope.
Local Open Scope Qc_scope.

Lemma fold_plus_acc (xs : list Qc) (a : Qc) :
  fold_left Qcplus xs a = a + fold_left Qcplus xs 0.
Proof.
  revert a. induction xs as [|x xs IH]; intros a; simpl.
  - ring.
  - rewrite (IH (a + x)), (IH (0 + x)). ring.
Qed.

Lemma sum_cons (x : Qc) (xs : list Qc) : sum (x :: xs) = x + sum xs.
Proof.
  unfold sum. simpl. rewrite fold_plus_acc. ring.
Qed.

Lemma of_nat_S (n : nat) : of_nat (S n) = 1 + of_nat n.
Proof.
  unfold of_nat. apply Qc_is_canon.
  unfold Qcplus, Q2Qc, this. rewrite !Qred_correct.
  rewrite Nat2Z.inj_succ. unfold Z.succ. rewrite inject_Z_plus.
  change (inject_Z 1) with 1%Q. ring.
Qed.

Lemma of_nat_pos (n : nat) : 0 < of_nat (S n).
Proof.
  unfold of_nat, Qclt. cbn [this Q2Qc]. rewrite !Qred_correct.
  change 0%Q with (inject_Z 0). rewrite <- Zlt_Qlt. lia.
Qed.

Lemma of_nat_nonzero (n : nat) : n <> 0%nat -> of_nat n <> 0.
Proof.
  destruct n as [|n]; [congruence|]. intros _ H.
  pose proof (of_nat_pos n) as Hp. rewrite H in Hp.
  exact (Qclt_not_eq _ _ Hp eq_refl).
Qed.

Lemma sum_shift (m : Qc) (xs : list Qc) :
  sum (map (fun x => x - m) xs) = sum xs - of_nat (List.length xs) * m.
Proof.
  induction xs as [|x xs IH]; simpl List.length; simpl map.
  - unfold sum, of_nat. simpl. apply Qc_is_canon. reflexivity.
  - rewrite !sum_cons, IH, of_nat_S. ring.
Qed.

(** Subtracting the mean leaves ratings that add up to zero. *)
Lemma sum_centred (xs : list Qc) :
  xs <> [] ->
  sum (map (fun x => x - sum xs / of_nat (List.length xs)) xs) = 0.
Proof.
  intros Hne. rewrite sum_shift.
  assert (Hn : of_nat (List.length xs) <> 0).
  { apply of_nat_nonzero. destruct xs; [congruence | discriminate]. }
  field. exact Hn.
Qed.

Lemma fold_centre (mean : Qc) (l : list (string * (Qc * Qc))) (acc : ratings_t) :
  NoDup (Dict.keys acc ++ map fst l) ->
  fold_left
    (fun d '(name, (elo, sigma)) => Dict.set d name (elo - mean, sigma)) l acc
  = acc ++ map (centred mean) l.
Proof.
  revert acc. induction l as [|[k [e s]] l IH]; intros acc Hnd; simpl.
  - now rewrite app_nil_r.
  - rewrite DictFacts.keys_set_absent.
    + rewrite IH.
      * now rewrite <- app_assoc.
      * unfold Dict.keys in *. rewrite map_app, <- app_assoc. exact Hnd.
    + apply NoDup_remove_2 in Hnd. intros Hin. apply Hnd.
      apply in_or_app. now left.
Qed.

Lemma mean_center_map (t : ratings_t) :
  Dict.wf t -> t <> [] ->
  mean_center t = map (centred (arithmetic_mean (ratings_of t))) t.
Proof.
  intros Hwf Hne. unfold mean_center.
  destruct t as [|kv t]; [congruence|].
  cbn [Dict.is_empty]. unfold Dict.items, Dict.empty.
  rewrite fold_centre by exact Hwf.
  unfold arithmetic_mean, ratings_of, Dict.len, Dict.values.
  now rewrite !length_map.
Qed.

Lemma keys_centred (mean : Qc) (t : ratings_t) :
  Dict.keys (map (centred mean) t) = Dict.keys t.
Proof.
  unfold Dict.keys. rewrite map_map. reflexivity.
Qed.

Lemma ratings_centred (mean : Qc) (t : ratings_t) :
  ratings_of (map (centred mean) t)
  = map (fun x => x - mean) (ratings_of t).
Proof.
  unfold ratings_of, Dict.values. rewrite !map_map. reflexivity.
Qed.


Lemma get_centred (mean : Qc) (t : ratings_t) (k : string) :
  Dict.get (map (centred mean) t) k
  = option_map (fun v => (fst v - mean, snd v)) (Dict.get t k).
Proof.
  induction t as [|[k' [e s]] t IH]; simpl; [reflexivity|].
  destruct (String.eqb k' k); [reflexivity | exact IH].
Qed.

Lemma centred_zero (t : ratings_t) : map (centred 0) t = t.
Proof.
  induction t as [|[k [e s]] t IH]; simpl; [reflexivity|].
  rewrite IH. unfold centred. simpl. do 2 f_equal. f_equal. ring.
Qed.

Lemma ratings_nonempty (t : ratings_t) : t <> [] -> ratings_of t <> [].
Proof. destruct t; [congruence | discriminate]. Qed.

Lemma mean_of_centred (t : ratings_t) :
  t <> [] ->
  arithmetic_mean
    (ratings_of (map (centred (arithmetic_mean (ratings_of t))) t)) = 0.
Proof.
  intros Hne. unfold arithmetic_mean at 1.
  rewrite ratings_centred. unfold arithmetic_mean.
  rewrite sum_centred by now apply ratings_nonempty.
  rewrite length_map. field.
  apply of_nat_nonzero. pose proof (ratings_nonempty Hne) as H.
  destruct (ratings_of t); [congruence | discriminate].
Qed.

(** C8. [mean_center] returns the empty table as it is: the function is
    total and the empty table is its own image. *)
Theorem mean_center_empty : mean_center (Dict.empty _) = Dict.empty _.
Proof. reflexivity. Qed.

(** *** The same function in any arithmetic *)

Section Arithmetic.

Variable F : Type.
Variable zero : F.
Variables add sub div : F -> F -> F.
Variable of_len : nat -> F.





End Arithmetic.

(** [Rate.mean_center] is that function over the rationals. *)
Lemma exact_mean_center (t : ratings_t) :
  mean_center t = Binary64.mean_center_with 0 Qcplus Qcminus Qcdiv of_nat t.
Proof. reflexivity. Qed.


Lemma table_AB_wf : Dict.wf table_AB.
Proof.
  unfold Dict.wf, table_AB. simpl.
  repeat constructor; simpl; intuition discriminate.
Defined.


(** C10. Centring a centred table changes nothing: the ratings of a
    centred non-empty table have mean zero, and the empty table is
    returned as it is. *)
Theorem mean_center_idempotent (t : ratings_t) :
  Dict.wf t ->
  mean_center (mean_center t) = mean_center t
  /\ (t <> [] -> arithmetic_mean (ratings_of (mean_center t)) = 0).
Proof.
  intros Hwf. destruct t as [|kv t]; [split; [reflexivity | congruence]|].
  assert (Hne : kv :: t <> []) by discriminate.
  rewrite (mean_center_map Hwf Hne).
  set (m := arithmetic_mean (ratings_of (kv :: t))).
  assert (Hzero : arithmetic_mean (ratings_of (map (centred m) (kv :: t))) = 0)
    by now apply mean_of_centred.
  split; [|intros _; exact Hzero].
  rewrite mean_center_map.
  - rewrite Hzero. apply centred_zero.
  - unfold Dict.wf. rewrite keys_centred. exact Hwf.
  - discriminate.
Qed.

Lemma mean_center_idempotent_witness :
  mean_center (mean_center table_AB) = mean_center table_AB.
Proof.
  apply (mean_center_idempotent table_AB_wf).
Defined.

End CenterFacts.

(* ------------------------------------------------------------------ *)
(** ** [mean_center] on tables of binary64 ratings *)

Module Binary64Facts.
Import Rate CenterFacts.
Import PrimFloat.
Local Open Scope list_scope.



End Binary64Facts.

(* ------------------------------------------------------------------ *)
(** ** Facts about [sorted] *)

Module SortingFacts.
Import Sorting.
Local Open Scope list_scope.
Local Open Scope Qc_scope.

Section Facts.

Variable A : Type.
Variable key : A -> Qc.

Lemma Qcleb_true (a b : Qc) : Qcleb a b = true <-> a <= b.
Proof. unfold Qcleb, Qcle. apply Qle_bool_iff. Qed.

Lemma Qcleb_false (a b : Qc) : Qcleb a b = false -> b < a.
Proof.
  intros H. apply Qcnot_le_lt. intros Hle.
  apply Qcleb_true in Hle. congruence.
Qed.

Lemma insert_perm (x : A) (l : list A) : Permutation (insert key x l) (x :: l).
Proof.
  induction l as [|y l IH]; simpl; [reflexivity|].
  destruct (Qcleb (key x) (key y)); [reflexivity|].
  rewrite IH. apply perm_swap.
Qed.

Lemma sort_up_perm (l : list A) : Permutation (sort_up key l) l.
Proof.
  induction l as [|x l IH]; simpl; [reflexivity|].
  rewrite insert_perm. now constructor.
Qed.

Lemma insert_sorted (x : A) (l : list A) :
  StronglySorted (up key) l -> StronglySorted (up key) (insert key x l).
Proof.
  induction 1 as [|y l Hl IH Hy]; simpl.
  - repeat constructor.
  - destruct (Qcleb (key x) (key y)) eqn:E.
    + apply Qcleb_true in E. constructor; [now constructor|].
      constructor; [exact E|].
      apply Forall_impl with (2 := Hy). intros z Hz. unfold up in *.
      now apply Qcle_trans with (key y).
    + apply Qcleb_false, Qclt_le_weak in E. constructor; [exact IH|].
      apply Permutation_Forall with (x :: l).
      * symmetry. apply insert_perm.
      * now constructor.
Qed.

Lemma sort_up_sorted (l : list A) : StronglySorted (up key) (sort_up key l).
Proof.
  induction l as [|x l IH]; simpl; [constructor | now apply insert_sorted].
Qed.

Lemma sorted_snoc (R : A -> A -> Prop) (l : list A) (x : A) :
  StronglySorted R l -> Forall (fun a => R a x) l ->
  StronglySorted R (l ++ [x]).
Proof.
  induction 1 as [|y l Hl IH Hy]; simpl; intros Hx.
  - repeat constructor.
  - inversion Hx; subst. constructor; [now apply IH|].
    apply Forall_app. split; [exact Hy | now repeat constructor].
Qed.

Lemma rev_sorted (l : list A) :
  StronglySorted (up key) l -> StronglySorted (down key) (rev l).
Proof.
  induction 1 as [|y l Hl IH Hy]; simpl; [constructor|].
  apply sorted_snoc; [exact IH|].
  apply Forall_rev. exact Hy.
Qed.

(** Insertion does not move an element past another of the same key. *)
Lemma insert_stable (d : Qc) (x : A) (l : list A) :
  filter (has_key key d) (insert key x l) = filter (has_key key d) (x :: l).
Proof.
  induction l as [|y l IH]; [reflexivity|].
  cbn [insert]. destruct (Qcleb (key x) (key y)) eqn:E; [reflexivity|].
  apply Qcleb_false in E.
  cbn [filter] in *. rewrite IH.
  destruct (has_key key d x) eqn:Hx; [|reflexivity].
  destruct (has_key key d y) eqn:Hy; [|reflexivity].
  unfold has_key in Hx, Hy.
  apply Qc_eq_bool_correct in Hx. apply Qc_eq_bool_correct in Hy.
  rewrite Hx, Hy in E. exfalso. exact (Qclt_not_eq _ _ E eq_refl).
Qed.

Lemma sort_up_stable (d : Qc) (l : list A) :
  filter (has_key key d) (sort_up key l) = filter (has_key key d) l.
Proof.
  induction l as [|x l IH]; [reflexivity|].
  cbn [sort_up]. rewrite insert_stable. cbn [filter]. now rewrite IH.
Qed.

(** [sorted(xs, key=key, reverse=True)]: the keys go down, nothing is
    lost or added, and the elements of one key keep their order. *)
Lemma sorted_reverse_down (l : list A) :
  StronglySorted (down key) (sorted key true l).
Proof. apply rev_sorted, sort_up_sorted. Qed.

Lemma sorted_reverse_perm (l : list A) : Permutation (sorted key true l) l.
Proof.
  unfold sorted. rewrite <- Permutation_rev, sort_up_perm.
  symmetry. apply Permutation_rev.
Qed.

Lemma sorted_reverse_stable (d : Qc) (l : list A) :
  filter (has_key key d) (sorted key true l) = filter (has_key key d) l.
Proof.
  unfold sorted. rewrite filter_rev, sort_up_stable, filter_rev.
  apply rev_involutive.
Qed.

End Facts.
End SortingFacts.

(* ------------------------------------------------------------------ *)
(** ** Facts about the report *)

Module ReportFacts.
Import Rate.
Local Open Scope list_scope.
Local Open Scope Qc_scope.

Lemma build_rows_eq (rel : ratings_t) :
  build_rows rel = map row_of_item (Sorting.sorted by_elo true (Dict.items rel)).
Proof. reflexivity. Qed.

Lemma sorted_map (A B : Type) (R : B -> B -> Prop) (f : A -> B) (l : list A) :
  StronglySorted (fun a b => R (f a) (f b)) l -> StronglySorted R (map f l).
Proof.
  induction 1 as [|x l Hl IH Hx]; simpl; constructor; [exact IH|].
  apply Forall_map. exact Hx.
Qed.

Lemma filter_map_comm (A B : Type) (p : B -> bool) (f : A -> B) (l : list A) :
  filter p (map f l) = map f (filter (fun a => p (f a)) l).
Proof.
  induction l as [|x l IH]; simpl; [reflexivity|].
  destruct (p (f x)); simpl; now rewrite IH.
Qed.

Lemma rows_perm (rel : ratings_t) :
  Permutation (build_rows rel) (map row_of_item (Dict.items rel)).
Proof.
  rewrite build_rows_eq. apply Permutation_map.
  apply SortingFacts.sorted_reverse_perm.
Qed.

Lemma names_perm (rel : ratings_t) :
  Permutation (map name (build_rows rel)) (Dict.keys rel).
Proof.
  rewrite (Permutation_map name (rows_perm rel)).
  unfold Dict.keys, Dict.items. rewrite map_map. reflexivity.
Qed.

Lemma row_in_table (rel : ratings_t) (r : row) :
  In r (build_rows rel) -> In (name r, (elo r, sigma r)) (Dict.items rel).
Proof.
  intros Hin. apply (Permutation_in _ (rows_perm rel)) in Hin.
  apply in_map_iff in Hin. destruct Hin as [[k [e s]] [<- Hin]]. exact Hin.
Qed.

Lemma find_absent (rel : ratings_t) (target : string) :
  ~ In target (Dict.keys rel) ->
  find (fun r => String.eqb (name r) target) (build_rows rel) = None.
Proof.
  intros Hnin.
  destruct (find _ (build_rows rel)) as [r|] eqn:E; [|reflexivity].
  apply find_some in E. destruct E as [Hin Heq].
  apply String.eqb_eq in Heq. exfalso. apply Hnin.
  apply (Permutation_in _ (names_perm rel)). subst target.
  now apply in_map.
Qed.

Lemma find_present (rel : ratings_t) (target : string) :
  In target (Dict.keys rel) ->
  exists r, find (fun r => String.eqb (name r) target) (build_rows rel) = Some r
            /\ name r = target /\ In r (build_rows rel).
Proof.
  intros Hin.
  destruct (find _ (build_rows rel)) as [r|] eqn:E.
  - exists r. apply find_some in E. destruct E as [Hr Heq].
    apply String.eqb_eq in Heq. auto.
  - exfalso.
    apply (Permutation_in _ (Permutation_sym (names_perm rel))) in Hin.
    apply in_map_iff in Hin. destruct Hin as [r [Hname Hr]].
    pose proof (find_none _ _ E _ Hr) as Hf. cbv beta in Hf.
    rewrite Hname, String.eqb_refl in Hf. discriminate.
Qed.

Lemma truthy_nonempty (target : string) :
  target <> "" -> truthy (Some target) = Some target.
Proof. destruct target; [congruence | reflexivity]. Qed.

(** C4. The rows of the report go by descending rating; they are the
    records of the table, none lost and none added; and the rows that
    share a rating stand in the order the table holds them in.  Without
    a filter these rows, in this order, are what is printed. *)
Theorem rows_descending_stable (rel : ratings_t) (p b : string) (w : io) :
  let rows := build_rows rel in
  StronglySorted (fun r1 r2 => elo r2 <= elo r1) rows
  /\ Permutation rows (map row_of_item (Dict.items rel))
  /\ (forall d : Qc,
        filter (fun r => Qc_eq_bool (elo r) d) rows
        = filter (fun r => Qc_eq_bool (elo r) d)
                 (map row_of_item (Dict.items rel)))
  /\ report (Args p b None) rel w
     = (IO (stdout w ++ [Dumps (payload (Args p b None) rows) (Some 2%nat)])
           (stderr w), Ret tt).
Proof.
  intros rows. subst rows. split; [|split; [|split]].
  - rewrite build_rows_eq. apply sorted_map.
    exact (SortingFacts.sorted_reverse_down by_elo (Dict.items rel)).
  - apply rows_perm.
  - intros d. rewrite build_rows_eq, !filter_map_comm. f_equal.
    exact (SortingFacts.sorted_reverse_stable by_elo d (Dict.items rel)).
  - reflexivity.
Qed.

(** C5, as the code has it.  A target that is given and not empty is
    looked up by exact name.  When the table has no such name the call
    leaves with status 1 after a message that lists the names of all the
    rows; otherwise it prints the reduced document, which holds the row
    of that name, taken from the table, under the keys [version], [mode],
    [pgn], [engine] and [notes]. *)
Theorem report_filtered (a : args) (rel : ratings_t) (target : string) (w : io) :
  engine_name a = Some target -> target <> "" ->
  (~ In target (Dict.keys rel) ->
     report a rel w
     = (IO (stdout w)
           (stderr w ++ [EngineNotFound target (map name (build_rows rel))]),
        Exit 1)
     /\ Permutation (map name (build_rows rel)) (Dict.keys rel))
  /\ (In target (Dict.keys rel) ->
      exists r,
        name r = target
        /\ In (target, (elo r, sigma r)) (Dict.items rel)
        /\ report a rel w
           = (IO (stdout w ++ [Dumps (engine_payload a r) None]) (stderr w),
              Ret tt)).
Proof.
  intros Hname Hne. unfold report. rewrite Hname, (truthy_nonempty Hne).
  split.
  - intros Hnin. rewrite (@find_absent rel target Hnin).
    split; [reflexivity | apply names_perm].
  - intros Hin. destruct (@find_present rel target Hin) as [r [Hfind [Hr Hrow]]].
    exists r. rewrite Hfind. split; [exact Hr|]. split; [|reflexivity].
    rewrite <- Hr. now apply row_in_table.
Qed.

Lemma report_filtered_witness :
  report (Args "games.pgn" "tools/bin/bayeselo" (Some "EngineC")) table_AB
         (IO [] [])
  = (IO [] [EngineNotFound "EngineC" ["EngineA"; "EngineB"]], Exit 1).
Proof.
  refine (proj1 (proj1 (@report_filtered
    (Args "games.pgn" "tools/bin/bayeselo" (Some "EngineC")) table_AB
    "EngineC" (IO [] []) eq_refl _) _)).
  - discriminate.
  - simpl. intuition discriminate.
Defined.

(** C5, as it is worded, fails for the empty target: [--engine-name ""]
    is given, no row has that name, and the full report is printed with
    status 0. *)
Lemma report_empty_target :
  let a := Args "games.pgn" "tools/bin/bayeselo" (Some "") in
  engine_name a = Some ""
  /\ ~ In "" (Dict.keys table_AB)
  /\ report a table_AB (IO [] [])
     = (IO [Dumps (payload a (build_rows table_AB)) (Some 2%nat)] [], Ret tt).
Proof.
  split; [reflexivity|]. split; [|reflexivity].
  simpl. intuition discriminate.
Qed.

End ReportFacts.

(* ------------------------------------------------------------------ *)
(** ** Facts about [main] *)

Module MainFacts.
Import Rate.
Local Open Scope list_scope.

Lemma report_cases (a : args) (rel : ratings_t) (w : io) :
  (exists doc, report a rel w = (IO (stdout w ++ [doc]) (stderr w), Ret tt))
  \/ (exists msg,
        report a rel w = (IO (stdout w) (stderr w ++ [msg]), Exit 1)
        /\ failure_kind msg = Some ParticipantNotFound).
Proof.
  unfold report. destruct (truthy (engine_name a)) as [target|].
  - destruct (find _ (build_rows rel)) as [r|].
    + left. eexists. reflexivity.
    + right. eexists. split; reflexivity.
  - left. eexists. reflexivity.
Qed.

Ltac died :=
  right; do 2 eexists; split; [reflexivity | split; reflexivity].

Lemma main_cases (sys : os) (a : args) (w : io) (r : res unit) :
  main sys a (IO [] []) = (w, r) ->
  (exists doc, w = IO [doc] [] /\ r = Ret tt)
  \/ (exists msg kind,
        w = IO [] [msg] /\ r = Exit 1 /\ failure_kind msg = Some kind).
Proof.
  unfold main, run_bayeselo.
  unfold bind at 1. unfold when at 1.
  destruct (isfile sys (pgn a)); cbn [negb andb];
    [|cbn; intros [= <- <-]; died].
  unfold ret at 1. unfold bind at 1. unfold when at 1.
  destruct (access_x sys (bayeselo a)), (isfile sys (bayeselo a));
    cbn [negb andb]; try (cbn; intros [= <- <-]; died).
  unfold ret at 1. unfold bind at 1.
  destruct (popen sys (bayeselo a)) as [proc|];
    [|cbn; intros [= <- <-]; died].
  destruct (proc _) as [rc out]. unfold bind at 1. unfold when at 1.
  destruct (rc =? 0)%Z; cbn [negb]; [|cbn; intros [= <- <-]; died].
  unfold ret at 1. unfold ret at 1. unfold bind at 1.
  rewrite ParseFacts.parse_ratings_unfold.
  destruct (ParseFacts.scan_output out) as [t [-> _]].
  destruct (Dict.is_empty t); [cbn; intros [= <- <-]; died|].
  destruct (report_cases a (mean_center t) (IO [] []))
    as [[doc ->]|[msg [-> Hk]]]; intros [= <- <-].
  - left. now exists doc.
  - right. now exists msg, ParticipantNotFound.
Qed.

Lemma find_by_name (target : string) (rows : list row) :
  match find (fun r => String.eqb (name r) target) rows with
  | Some r => In r rows /\ name r = target
  | None => ~ In target (map name rows)
  end.
Proof.
  destruct (find _ rows) as [r|] eqn:E.
  - apply find_some in E. destruct E as [Hin Heq].
    apply String.eqb_eq in Heq. auto.
  - intros Hin. apply in_map_iff in Hin. destruct Hin as [r [Hname Hr]].
    pose proof (find_none _ _ E _ Hr) as Hf. cbv beta in Hf.
    rewrite Hname, String.eqb_refl in Hf. discriminate.
Qed.

(** What is left of [main] once the backend has answered. *)
Lemma main_after_backend (sys : os) (a : args) (rc : Z) (out : string) :
  backend_ran sys a rc out ->
  main sys a (IO [] [])
  = if (rc =? 0)%Z
    then (raw <- parse_ratings out ;; report a (mean_center raw)) (IO [] [])
    else (IO [] [BayesEloFailed rc out], Exit 1).
Proof.
  intros [Hpgn [Hbin [proc [Hpopen Hproc]]]].
  unfold usable in Hbin. unfold script in Hproc.
  unfold main, run_bayeselo, bind, when.
  rewrite Hpgn, Hbin, Hpopen, Hproc.
  destruct (rc =? 0)%Z; reflexivity.
Qed.

Lemma main_parsed (sys : os) (a : args) (out : string) (t : ratings_t) :
  backend_ran sys a 0 out -> scanned out t -> t <> [] ->
  main sys a (IO [] []) = report a (mean_center t) (IO [] []).
Proof.
  intros Hran Hscan Hne. rewrite (main_after_backend Hran). cbn [Z.eqb].
  unfold bind. rewrite (@ParseFacts.parse_ratings_ret out t Hscan Hne).
  reflexivity.
Qed.

(** C9. A run ends in one of two ways: with status 0, one document on the
    success channel and nothing on the error channel; or with status 1,
    nothing on the success channel and one message on the error channel,
    which reports one of the four failure kinds.  Which of the two it is,
    and which message, is decided by what the run meets, in this order:

    - the results log is not a file: [PgnNotFound] (InputNotFound);
    - the backend is not a file that may be executed:
      [BayesEloNotExecutable] (InputNotFound);
    - the backend cannot be started: [BayesEloNotFound] (InputNotFound);
    - the backend ends with a return code other than 0: [BayesEloFailed]
      with the code and what it wrote (BackendFailure);
    - the backend ends with 0 and the parser, which always ends with a
      table, ends with the empty one, as it does when none of the lines
      it visits is matched: [CouldNotParse] (ParseFailure);
    - the table is not empty, a target is given and is not the empty
      string, and no row has that name: [EngineNotFound] with the names
      of the rows (ParticipantNotFound);
    - otherwise the run succeeds: it prints the row of the target, or,
      without a target, all the rows. *)
Theorem all_or_nothing (sys : os) (a : args) :
  let o := run_main sys a in
  ((status o = 0%Z /\ out_stderr o = [] /\ exists doc, out_stdout o = [doc])
   \/ (status o = 1%Z /\ out_stdout o = []
       /\ exists msg kind,
            out_stderr o = [msg] /\ failure_kind msg = Some kind))
  /\ (isfile sys (pgn a) = false ->
      o = Outcome [] [PgnNotFound (pgn a)] 1)
  /\ (isfile sys (pgn a) = true -> usable sys (bayeselo a) = false ->
      o = Outcome [] [BayesEloNotExecutable (bayeselo a)] 1)
  /\ (isfile sys (pgn a) = true -> usable sys (bayeselo a) = true ->
      popen sys (bayeselo a) = None ->
      o = Outcome [] [BayesEloNotFound (bayeselo a)] 1)
  /\ (forall rc out,
        backend_ran sys a rc out -> rc <> 0%Z ->
        o = Outcome [] [BayesEloFailed rc out] 1)
  /\ (forall out,
        (exists t, scanned out t)
        /\ ((forall ln, In ln (scanned_lines out) ->
                        first_match (Str.rstrip ln) = None) ->
            scanned out []))
  /\ (forall out,
        backend_ran sys a 0 out -> scanned out [] ->
        o = Outcome [] [parse_failure_message out] 1)
  /\ (forall out t,
        backend_ran sys a 0 out -> scanned out t -> t <> [] ->
        let rows := build_rows (mean_center t) in
        match truthy (engine_name a) with
        | Some target =>
            (~ In target (map name rows) ->
             o = Outcome [] [EngineNotFound target (map name rows)] 1)
            /\ (In target (map name rows) ->
                exists r,
                  In r rows /\ name r = target
                  /\ o = Outcome [Dumps (engine_payload a r) None] [] 0)
        | None => o = Outcome [Dumps (payload a rows) (Some 2%nat)] [] 0
        end).
Proof.
  cbv zeta. split; [|split; [|split; [|split; [|split; [|split; [|split]]]]]].
  - unfold run_main.
    destruct (main sys a (IO [] [])) as [w r] eqn:E.
    destruct (main_cases _ _ E) as [[doc [-> ->]]|[msg [kind [-> [-> Hk]]]]].
    + left. cbn. repeat split. now exists doc.
    + right. cbn. repeat split. now exists msg, kind.
  - intros H. unfold run_main, main, bind, when. rewrite H. reflexivity.
  - intros Hpgn Hbin. unfold usable in Hbin.
    unfold run_main, main, bind, when. rewrite Hpgn, Hbin. reflexivity.
  - intros Hpgn Hbin Hpopen. unfold usable in Hbin.
    unfold run_main, main, run_bayeselo, bind, when.
    rewrite Hpgn, Hbin, Hpopen. reflexivity.
  - intros rc out Hran Hrc. unfold run_main.
    rewrite (main_after_backend Hran).
    destruct (Z.eqb_spec rc 0) as [->|_]; [congruence | reflexivity].
  - intros out. split.
    + destruct (ParseFacts.scan_output out) as [t [Ht _]]. now exists t.
    + intros Hnone. apply ParseFacts.scan_lines_unmatched. exact Hnone.
  - intros out Hran Hscan. unfold run_main.
    rewrite (main_after_backend Hran). cbn [Z.eqb]. unfold bind.
    rewrite ParseFacts.parse_ratings_unfold, Hscan. reflexivity.
  - intros out t Hran Hscan Hne. unfold run_main.
    rewrite (main_parsed Hran Hscan Hne). unfold report.
    destruct (truthy (engine_name a)) as [target|]; [|reflexivity].
    pose proof (find_by_name target (build_rows (mean_center t))) as Hfind.
    destruct (find _ (build_rows (mean_center t))) as [r|].
    + destruct Hfind as [Hin Hname]. split.
      * intros Hnin. exfalso. apply Hnin. rewrite <- Hname. now apply in_map.
      * intros _. exists r. repeat split; auto.
    + split; [reflexivity|]. intros Hin. contradiction.
Qed.

Lemma sample_ran (engine : option string) :
  backend_ran sample_os (sample_args engine) 0 sample_report.
Proof.
  split; [reflexivity|]. split; [reflexivity|].
  exists (fun _ => (0%Z, sample_report)). split; reflexivity.
Defined.

Lemma sample_scanned : scanned sample_report sample_table.
Proof. unfold scanned. ParseFacts.table_eq. Defined.

Lemma all_or_nothing_witness :
  run_main no_pgn_os (sample_args None)
  = Outcome [] [PgnNotFound "runs/gauntlet.pgn"] 1
  /\ run_main sample_os (sample_args (Some "EngineD"))
     = Outcome [] [EngineNotFound "EngineD" ["EngineA"; "EngineB"; "EngineC"]] 1.
Proof.
  split.
  - apply (proj1 (proj2 (all_or_nothing no_pgn_os (sample_args None)))).
    reflexivity.
  - assert (Hne : sample_table <> []) by discriminate.
    pose proof (all_or_nothing sample_os (sample_args (Some "EngineD"))) as H.
    cbv zeta in H. destruct H as (_ & _ & _ & _ & _ & _ & _ & H).
    specialize (H sample_report sample_table (sample_ran _) sample_scanned Hne).
    cbv zeta in H. cbn [truthy sample_args engine_name Str.is_empty] in H.
    destruct H as [H _]. rewrite H.
    + reflexivity.
    + vm_compute. intuition discriminate.
Defined.

(** The run of the specification's end-to-end scenario: the ratings 100,
    0 and -100 have mean 0 and stay as they are, the rows go down, and
    the filter on the second engine prints its row alone. *)
Example end_to_end_full :
  run_main sample_os (sample_args None)
  = Outcome
      [Dumps (payload (sample_args None)
                [Row "EngineA" (Q2Qc 100) (Q2Qc 30);
                 Row "EngineB" (Q2Qc 0) (Q2Qc 20);
                 Row "EngineC" (Q2Qc (-100)) (Q2Qc 10)])
             (Some 2%nat)]
      [] 0.
Proof. ParseFacts.table_eq. Qed.

Example end_to_end_filtered :
  run_main sample_os (sample_args (Some "EngineB"))
  = Outcome
      [Dumps (engine_payload (sample_args (Some "EngineB"))
                (Row "EngineB" (Q2Qc 0) (Q2Qc 20)))
             None]
      [] 0.
Proof. ParseFacts.table_eq. Qed.

Example end_to_end_missing :
  run_main sample_os (sample_args (Some "EngineD"))
  = Outcome []
      [EngineNotFound "EngineD" ["EngineA"; "EngineB"; "EngineC"]] 1.
Proof. ParseFacts.table_eq. Qed.

End MainFacts.

(* ------------------------------------------------------------------ *)
(** ** Further facts about [parse_ratings] *)

Module ParseMore.
Import Re ReFacts FloatFacts Rate RateMore ParseFacts.
Local Open Scope string_scope.
Local Open Scope list_scope.

(** X1. [parse_ratings] has two ways to end, whatever it is given: it hands
    back a table that is not empty and leaves both channels as they
    were, or it prints its one message on the error channel and leaves
    with status 1.  It never raises ([float] is only ever applied to a
    numeral) and never prints on the success channel. *)
Theorem parse_ratings_outcomes (output : string) (w : io) :
  (exists t, t <> [] /\ parse_ratings output w = (w, Ret t))
  \/ parse_ratings output w
     = (IO (stdout w)
           (stderr w
            ++ [CouldNotParse
                  (Str.join nl (Str.last_n 40 (Str.splitlines output)))]),
        Exit 1).
Proof.
  rewrite parse_ratings_unfold.
  destruct (scan_output output) as [t [-> _]].
  destruct t as [|kv t]; cbn [Dict.is_empty].
  - right. reflexivity.
  - left. exists (kv :: t). split; [discriminate | reflexivity].
Qed.

(** *** The header *)

Lemma find_start_none (lines : list string) :
  (forall ln, In ln lines -> is_header ln = false) ->
  forall i, find_start i lines = 0%nat.
Proof.
  induction lines as [|ln lines IH]; intros H i; cbn [find_start].
  - reflexivity.
  - pose proof (H ln (or_introl eq_refl)) as Hln. unfold is_header in Hln.
    rewrite Hln. apply IH. intros l Hl. apply H. now right.
Qed.

Lemma find_start_at (pre post : list string) (hdr : string) :
  (forall ln, In ln pre -> is_header ln = false) ->
  is_header hdr = true ->
  forall i, find_start i (pre ++ hdr :: post) = (i + List.length pre + 1)%nat.
Proof.
  induction pre as [|ln pre IH]; intros Hpre Hhdr i; cbn [app find_start].
  - unfold is_header in Hhdr. rewrite Hhdr. cbn [List.length]. lia.
  - pose proof (Hpre ln (or_introl eq_refl)) as Hln. unfold is_header in Hln.
    rewrite Hln, IH; [cbn [List.length]; lia | | exact Hhdr].
    intros l Hl. apply Hpre. now right.
Qed.

Lemma skipn_past (A : Type) (pre post : list A) (x : A) :
  skipn (List.length pre + 1) (pre ++ x :: post) = post.
Proof.
  induction pre as [|y pre IH]; cbn [List.length Nat.add app skipn].
  - reflexivity.
  - exact IH.
Qed.

(** X2. The loop visits the lines below the first line that mentions both
    "Name" and "Elo", and nothing else: a row at or above that line
    never reaches the table. *)
Theorem header_skipped (output : string) (pre post : list string) (hdr : string) :
  Str.splitlines output = pre ++ hdr :: post ->
  (forall ln, In ln pre -> is_header ln = false) ->
  is_header hdr = true ->
  scanned_lines output = post
  /\ forall w w' t,
       parse_ratings output w = (w', Ret t) ->
       scan_lines (Dict.empty _) post = Ret t
       /\ forall rec, In rec t -> read_from post rec.
Proof.
  intros Hsplit Hpre Hhdr.
  assert (Hpost : scanned_lines output = post).
  { unfold scanned_lines. rewrite Hsplit, (@find_start_at pre post hdr Hpre Hhdr).
    cbn [Nat.add]. apply skipn_past. }
  split; [exact Hpost|]. intros w w' t Hparse.
  apply parse_ratings_inv in Hparse. destruct Hparse as [_ [_ Hscan]].
  rewrite Hpost in Hscan. split; [exact Hscan|].
  destruct (@scan_lines_inv post (Dict.empty _)) as [t' [Ht' [_ Hin]]];
    [constructor|].
  rewrite Hscan in Ht'. injection Ht' as <-.
  intros rec Hrec. destruct (Hin rec Hrec) as [[]|Hrd]. exact Hrd.
Qed.

Lemma header_skipped_witness :
  scanned_lines (two_lines "Rank Name Elo" "1 EngineA 120 35")
  = ["1 EngineA 120 35"].
Proof.
  refine (proj1 (@header_skipped
    (two_lines "Rank Name Elo" "1 EngineA 120 35")
    [] ["1 EngineA 120 35"] "Rank Name Elo" _ _ _)).
  - vm_compute. reflexivity.
  - intros ln [].
  - vm_compute. reflexivity.
Defined.

(** X3. Without such a line the loop visits every line of the text. *)
Theorem no_header_all_lines (output : string) :
  (forall ln, In ln (Str.splitlines output) -> is_header ln = false) ->
  scanned_lines output = Str.splitlines output.
Proof.
  intros H. unfold scanned_lines. now rewrite (@find_start_none _ H).
Qed.

Lemma no_header_all_lines_witness :
  scanned_lines (two_lines "EngineA 10 5" "EngineA 20 3")
  = ["EngineA 10 5"; "EngineA 20 3"].
Proof.
  refine (@no_header_all_lines (two_lines "EngineA 10 5" "EngineA 20 3") _).
  intros ln Hin. vm_compute in Hin.
  destruct Hin as [<-|[<-|[]]]; vm_compute; reflexivity.
Defined.

(** *** Names are trimmed *)

Lemma lstrip_idem (s : string) : Str.lstrip (Str.lstrip s) = Str.lstrip s.
Proof.
  induction s as [|a s IH]; cbn [Str.lstrip]; [reflexivity|].
  destruct (Str.isspace a) eqn:E; [exact IH|].
  cbn [Str.lstrip]. now rewrite E.
Qed.

Lemma rstrip_idem (s : string) : Str.rstrip (Str.rstrip s) = Str.rstrip s.
Proof.
  induction s as [|a s IH]; cbn [Str.rstrip]; [reflexivity|].
  destruct (Str.isspace a && Str.is_empty (Str.rstrip s)) eqn:E;
    [reflexivity|].
  cbn [Str.rstrip]. now rewrite IH, E.
Qed.

Lemma rstrip_lstrip_fixed (r : string) :
  Str.rstrip r = r -> Str.rstrip (Str.lstrip r) = Str.lstrip r.
Proof.
  induction r as [|a r IH]; intros H; cbn [Str.lstrip]; [reflexivity|].
  destruct (Str.isspace a) eqn:E; [|exact H].
  apply IH. cbn [Str.rstrip] in H.
  destruct (Str.isspace a && Str.is_empty (Str.rstrip r));
    [discriminate | now injection H].
Qed.

Lemma strip_fixed (g : string) :
  Str.lstrip (Str.strip g) = Str.strip g
  /\ Str.rstrip (Str.strip g) = Str.strip g
  /\ Str.strip (Str.strip g) = Str.strip g.
Proof.
  assert (Hl : Str.lstrip (Str.strip g) = Str.strip g)
    by apply lstrip_idem.
  assert (Hr : Str.rstrip (Str.strip g) = Str.strip g)
    by (apply rstrip_lstrip_fixed, rstrip_idem).
  repeat split; try assumption.
  unfold Str.strip at 1. now rewrite Hr.
Qed.

(** X4. No name of a table [parse_ratings] returns begins or ends with a
    blank: stripping it again, on either side, gives it back. *)
Theorem names_trimmed (output : string) (w w' : io) (t : ratings_t) :
  parse_ratings output w = (w', Ret t) ->
  forall name v,
    In (name, v) t ->
    Str.strip name = name
    /\ Str.lstrip name = name /\ Str.rstrip name = name.
Proof.
  intros Hparse name v Hin. apply parse_ratings_inv in Hparse.
  destruct Hparse as [_ [_ Hscan]].
  destruct (scan_output output) as [t' [Ht' [_ Hrd]]].
  rewrite Hscan in Ht'. injection Ht' as <-.
  destruct (Hrd _ Hin) as [_ [ln [m [g1 [_ [_ [_ [_ Hname]]]]]]]].
  cbn [fst] in Hname. subst name.
  destruct (strip_fixed g1) as [Hl [Hr Hs]]. auto.
Qed.

Lemma names_trimmed_witness : Str.strip "EngineA" = "EngineA".
Proof.
  refine (proj1 (@names_trimmed
    (two_lines "EngineA 10 5" "EngineA 20 3") (IO [] []) (IO [] [])
    [("EngineA", (Q2Qc 20, Q2Qc 3))] _ "EngineA" (Q2Qc 20, Q2Qc 3) _)).
  - vm_compute. reflexivity.
  - now left.
Defined.

(** *** The table as a fold, and the order of its names *)

Lemma yielded_cons (ln : string) (lines : list string) :
  yielded (ln :: lines)
  = match extract ln with
    | Ret (Some rec) => rec :: yielded lines
    | _ => yielded lines
    end.
Proof.
  unfold yielded. cbn [flat_map].
  destruct (extract ln) as [[rec|]| |]; reflexivity.
Qed.

Lemma scan_lines_fold (lines : list string) :
  forall ratings : ratings_t,
    scan_lines ratings lines
    = Ret (fold_left (fun d rec => Dict.set d (fst rec) (snd rec))
                     (yielded lines) ratings).
Proof.
  induction lines as [|ln lines IH]; intros ratings;
    [reflexivity|].
  cbn [scan_lines]. rewrite yielded_cons. unfold scan_line.
  destruct (extract_cases ln) as [->|[[name v] [-> _]]]; cbn [res_bind];
    rewrite IH; reflexivity.
Qed.

Lemma keys_fold (recs : list (string * (Qc * Qc))) :
  forall d : ratings_t,
    Dict.keys (fold_left (fun d rec => Dict.set d (fst rec) (snd rec)) recs d)
    = Dict.keys d ++ first_seen (Dict.keys d) (map fst recs).
Proof.
  induction recs as [|[k v] recs IH]; intros d; cbn [fold_left map first_seen fst snd].
  - now rewrite app_nil_r.
  - rewrite IH, DictFacts.keys_set.
    destruct (in_dec string_dec k (Dict.keys d)); [reflexivity|].
    now rewrite <- List.app_assoc.
Qed.

(** X5. The table is built by assigning the records the visited lines yield,
    one after the other, and its names stand in the order in which they
    first occur among those records: a record that overwrites another
    takes its place. *)
Theorem table_in_first_seen_order (output : string) (w w' : io) (t : ratings_t) :
  parse_ratings output w = (w', Ret t) ->
  t = fold_left (fun d rec => Dict.set d (fst rec) (snd rec))
                (yielded (scanned_lines output)) (Dict.empty _)
  /\ Dict.keys t = first_seen [] (map fst (yielded (scanned_lines output))).
Proof.
  intros Hparse. apply parse_ratings_inv in Hparse.
  destruct Hparse as [_ [_ Hscan]].
  rewrite scan_lines_fold in Hscan. injection Hscan as Ht.
  split; [now symmetry|].
  rewrite <- Ht, keys_fold. reflexivity.
Qed.

Lemma table_in_first_seen_order_witness :
  Dict.keys [("B", (Q2Qc 5, Q2Qc 6)); ("A", (Q2Qc 3, Q2Qc 4))]
  = first_seen []
      (map fst (yielded (scanned_lines
         (two_lines "B 1 2" (two_lines "A 3 4" "B 5 6"))))).
Proof.
  refine (proj2 (@table_in_first_seen_order
    (two_lines "B 1 2" (two_lines "A 3 4" "B 5 6")) (IO [] []) (IO [] [])
    [("B", (Q2Qc 5, Q2Qc 6)); ("A", (Q2Qc 3, Q2Qc 4))] _)).
  vm_compute. reflexivity.
Defined.

End ParseMore.

(* ------------------------------------------------------------------ *)
(** ** The matcher on a well-formed row *)

Module RowFacts.
Import Re Re.Notations ReFacts FloatFacts Rate RateMore ParseFacts.
Local Open Scope string_scope.
Local Open Scope list_scope.

(** *** Character classes *)

Lemma space_not_word (a : ascii) : Str.isspace a = true -> Str.isword a = false.
Proof.
  destruct a as [[] [] [] [] [] [] [] []]; vm_compute; congruence.
Qed.

Lemma space_not_digit (a : ascii) : Str.isspace a = true -> Str.isdigit a = false.
Proof.
  destruct a as [[] [] [] [] [] [] [] []]; vm_compute; congruence.
Qed.

Lemma digit_is_word (a : ascii) : Str.isdigit a = true -> Str.isword a = true.
Proof.
  destruct a as [[] [] [] [] [] [] [] []]; vm_compute; congruence.
Qed.

Lemma digit_not_space (a : ascii) : Str.isdigit a = true -> Str.isspace a = false.
Proof.
  destruct a as [[] [] [] [] [] [] [] []]; vm_compute; congruence.
Qed.

Lemma nonspace_is_dot (a : ascii) :
  Str.isspace a = false -> cls_match Dot a = true.
Proof.
  destruct a as [[] [] [] [] [] [] [] []]; vm_compute; congruence.
Qed.

(** *** One step of the matcher *)

Lemma heads_cat (r1 r2 : regex) (st mid st' : mstate) :
  heads r1 st mid -> heads r2 mid st' -> heads (Cat r1 r2) st st'.
Proof.
  intros [l1 H1] [l2 H2]. unfold heads. cbn [run].
  rewrite H1. cbn [flat_map]. rewrite H2. cbn [app]. eauto.
Qed.

Lemma flat_map_dead (A B : Type) (f : A -> list B) (l : list A) :
  (forall x, In x l -> f x = []) -> flat_map f l = [].
Proof.
  induction l as [|x l IH]; intros H; cbn [flat_map]; [reflexivity|].
  rewrite (H x (or_introl eq_refl)), IH; [reflexivity|].
  intros y Hy. apply H. now right.
Qed.

(** A concatenation whose first part offers states that lead nowhere
    before the one that does. *)
Lemma heads_cat_skip (r1 r2 : regex) (st mid st' : mstate)
      (short more : list mstate) :
  run r1 st = short ++ mid :: more ->
  (forall x, In x short -> run r2 x = []) ->
  heads r2 mid st' -> heads (Cat r1 r2) st st'.
Proof.
  intros H1 Hshort [l2 H2]. unfold heads. cbn [run].
  rewrite H1, flat_map_app, (flat_map_dead _ _ Hshort).
  cbn [app flat_map]. rewrite H2. cbn [app]. eauto.
Qed.

Lemma repeat_from_last (k : cls) (w s : string) :
  all_cls k w = true -> stops k s = true ->
  forall p, exists l,
    rev (repeat_from k p (w ++ s)) = (last_of p w, s) :: l.
Proof.
  intros Hw Hs. induction w as [|a w IH]; intros p.
  - cbn [append last_of]. destruct s as [|b s]; cbn [repeat_from].
    + exists []. reflexivity.
    + cbn [stops] in Hs. apply negb_true_iff in Hs. rewrite Hs.
      exists []. reflexivity.
  - cbn [all_cls] in Hw. apply andb_true_iff in Hw. destruct Hw as [Ha Hw].
    cbn [append repeat_from last_of]. rewrite Ha.
    destruct (IH Hw (Some a)) as [l Hl].
    cbn [rev]. rewrite Hl. cbn [app]. eauto.
Qed.

Lemma heads_star (k : cls) (w s : string) (p : option ascii)
      (gs : list (nat * string)) :
  all_cls k w = true -> stops k s = true ->
  heads (Star k) (MState p (w ++ s) gs) (MState (last_of p w) s gs).
Proof.
  intros Hw Hs. destruct (repeat_from_last k w s Hw Hs p) as [l Hl].
  unfold heads. cbn [run prev rest]. rewrite Hl. cbn [map]. eauto.
Qed.

Lemma heads_plus (k : cls) (w s : string) (p : option ascii)
      (gs : list (nat * string)) :
  w <> "" -> all_cls k w = true -> stops k s = true ->
  heads (Plus k) (MState p (w ++ s) gs) (MState (last_of p w) s gs).
Proof.
  intros Hne Hw Hs. destruct w as [|a w]; [congruence|].
  cbn [all_cls] in Hw. apply andb_true_iff in Hw. destruct Hw as [Ha Hw].
  destruct (repeat_from_last k w s Hw Hs (Some a)) as [l Hl].
  unfold heads. cbn [run prev rest append plus_from]. rewrite Ha, Hl.
  cbn [map last_of]. eauto.
Qed.

Lemma heads_lit (c : ascii) (s : string) (p : option ascii)
      (gs : list (nat * string)) :
  heads (Lit c) (MState p (String c s) gs) (MState (Some c) s gs).
Proof.
  unfold heads. cbn [run rest groups]. rewrite Ascii.eqb_refl. eauto.
Qed.

Lemma heads_opt_take (r : regex) (st st' : mstate) :
  heads r st st' -> heads (Opt r) st st'.
Proof.
  intros [l H]. unfold heads. cbn [run]. rewrite H. cbn [app]. eauto.
Qed.

Lemma heads_opt_skip (r : regex) (st : mstate) :
  run r st = [] -> heads (Opt r) st st.
Proof.
  intros H. unfold heads. cbn [run]. rewrite H. cbn [app]. eauto.
Qed.

Lemma heads_group (n : nat) (r : regex) (w s : string) (p p' : option ascii)
      (gs gs' : list (nat * string)) :
  heads r (MState p (w ++ s) gs) (MState p' s gs') ->
  heads (Group n r) (MState p (w ++ s) gs) (MState p' s ((n, w) :: gs')).
Proof.
  intros [l H]. unfold heads. cbn [run]. rewrite H.
  cbn [map prev rest groups]. rewrite consumed_app. eauto.
Qed.

Lemma plus_dead (k : cls) (st : mstate) :
  stops k (rest st) = true -> run (Plus k) st = [].
Proof.
  intros H. cbn [run]. destruct (rest st) as [|a s]; [reflexivity|].
  cbn [stops] in H. apply negb_true_iff in H. cbn [plus_from].
  now rewrite H.
Qed.

Lemma cat_dead (r1 r2 : regex) (st : mstate) :
  run r1 st = [] -> run (Cat r1 r2) st = [].
Proof. intros H. cbn [run]. now rewrite H. Qed.

Lemma heads_match (r : regex) (s : string) (st' : mstate) :
  heads r (start s) st' -> match_ r s = Some (groups st').
Proof. intros [l H]. unfold match_. now rewrite H. Qed.

(** *** Numerals *)

Lemma column_end_stops (k : cls) (s : string) :
  k <> Space -> k <> Dot -> column_end s -> stops k s = true.
Proof.
  intros Hk Hd [->|[a [s' [-> Ha]]]]; [reflexivity|].
  destruct k; try congruence. cbn [stops cls_match].
  now rewrite (space_not_digit _ Ha).
Qed.

Lemma column_end_num_end (s : string) : column_end s -> num_end s.
Proof.
  intros [->|[a [s' [-> Ha]]]]; cbn [num_end]; [exact I|].
  split; [now apply space_not_digit|]. intros ->. discriminate Ha.
Qed.

Lemma num_end_stops (s : string) : num_end s -> stops Digit s = true.
Proof.
  destruct s as [|a s]; cbn [num_end stops cls_match]; [reflexivity|].
  intros [Ha _]. now rewrite Ha.
Qed.

Lemma num_end_no_point (s : string) : num_end s -> next s <> Some "."%char.
Proof.
  destruct s as [|a s]; cbn [num_end next]; [discriminate|].
  intros [_ Ha] [= ->]. now apply Ha.
Qed.

Lemma last_digit (w : string) :
  digits w -> forall p, exists d, last_of p w = Some d /\ Str.isdigit d = true.
Proof.
  intros [Hne Hd]. induction w as [|a w IH]; [congruence|]. intros p.
  cbn [all_cls cls_match] in Hd. apply andb_true_iff in Hd.
  destruct Hd as [Ha Hw]. cbn [last_of].
  destruct w as [|b w]; [exists a; now split|].
  apply IH; [discriminate | exact Hw].
Qed.

Lemma lit_dead_next (c : ascii) (st : mstate) :
  next (rest st) <> Some c -> run (Lit c) st = [].
Proof.
  intros H. cbn [run]. destruct (rest st) as [|a s]; [reflexivity|].
  destruct (Ascii.eqb_spec a c) as [->|]; [|reflexivity].
  exfalso. now apply H.
Qed.

(** On a numeral that ends its column the pattern for numerals takes
    the whole numeral first. *)
Lemma heads_unsigned (w s : string) (p : option ascii) (gs : list (nat * string)) :
  unsigned_numeral w -> num_end s ->
  exists d, Str.isdigit d = true
    /\ heads unsigned_num (MState p (w ++ s) gs) (MState (Some d) s gs).
Proof.
  intros [ip [Hip Hw]] Hs. unfold unsigned_num.
  destruct Hw as [->|[fp [Hfp ->]]].
  - destruct (last_digit Hip p) as [d [Hd Hdig]]. exists d.
    split; [exact Hdig|]. destruct Hip as [Hne Hall].
    apply heads_cat with (MState (last_of p ip) s gs).
    + apply heads_plus; auto. now apply num_end_stops.
    + rewrite Hd. apply heads_opt_skip, cat_dead, lit_dead_next.
      now apply num_end_no_point.
  - destruct (last_digit Hfp (Some "."%char)) as [d [Hd Hdig]]. exists d.
    split; [exact Hdig|]. destruct Hip as [Hne Hall]. destruct Hfp as [Hnf Hallf].
    rewrite append_assoc. cbn [append].
    apply heads_cat with (MState (last_of p ip) (String "." (fp ++ s)) gs).
    + apply heads_plus; auto.
    + apply heads_opt_take.
      apply heads_cat with (MState (Some "."%char) (fp ++ s) gs);
        [apply heads_lit|].
      rewrite <- Hd. apply heads_plus; auto.
      now apply num_end_stops.
Qed.

Lemma heads_signed (w s : string) (p : option ascii) (gs : list (nat * string)) :
  signed_numeral w -> num_end s ->
  exists d, Str.isdigit d = true
    /\ heads signed_num (MState p (w ++ s) gs) (MState (Some d) s gs).
Proof.
  intros [Hu|[u [Hu ->]]] Hs; unfold signed_num.
  - destruct (@heads_unsigned w s p gs Hu Hs) as [d [Hdig Hh]].
    exists d. split; [exact Hdig|].
    apply heads_cat with (MState p (w ++ s) gs); [|exact Hh].
    apply heads_opt_skip, lit_dead_next.
    destruct (unsigned_head Hu) as [c [w' [-> Hc]]]. cbn [rest append next].
    intros [= ->]. discriminate Hc.
  - destruct (@heads_unsigned u s (Some "-"%char) gs Hu Hs) as [d [Hdig Hh]].
    exists d. split; [exact Hdig|]. cbn [append].
    apply heads_cat with (MState (Some "-"%char) (u ++ s) gs); [|exact Hh].
    apply heads_opt_take, heads_lit.
Qed.

(** *** The name *)

Lemma repeat_from_name (name s : string) :
  no_space name = true ->
  forall p, exists short more,
    repeat_from Dot p (name ++ s) = short ++ (last_of p name, s) :: more
    /\ forall x, In x short -> stops Space (snd x) = true.
Proof.
  intros Hn. induction name as [|a name IH]; intros p.
  - exists [], (tl (repeat_from Dot p s)). split; [|intros x []].
    cbn [append last_of app]. destruct s; reflexivity.
  - cbn [no_space] in Hn. apply andb_true_iff in Hn. destruct Hn as [Ha Hn].
    apply negb_true_iff in Ha.
    destruct (IH Hn (Some a)) as [short [more [Hrep Hshort]]].
    exists ((p, String a (name ++ s)) :: short), more. split.
    + cbn [append repeat_from last_of]. rewrite (nonspace_is_dot _ Ha), Hrep.
      reflexivity.
    + intros x [<-|Hx]; [|now apply Hshort].
      cbn [snd stops cls_match]. now rewrite Ha.
Qed.

(** The lazy group gives the name up as soon as blanks follow it: the
    shorter candidates are followed by a character of the name, where
    [\s+] cannot start. *)
Lemma heads_name (name s : string) (p : option ascii) (gs : list (nat * string))
      (K : regex) (final : mstate) :
  name <> "" -> no_space name = true ->
  heads (Plus Space +> K) (MState (last_of p name) s ((1%nat, name) :: gs)) final ->
  heads (Group 1 (PlusLazy Dot) +> Plus Space +> K) (MState p (name ++ s) gs) final.
Proof.
  intros Hne Hn HK. destruct name as [|a name]; [congruence|].
  cbn [no_space] in Hn. apply andb_true_iff in Hn. destruct Hn as [Ha Hn].
  apply negb_true_iff in Ha.
  destruct (repeat_from_name name s Hn (Some a)) as [short [more [Hrep Hshort]]].
  set (st := MState p (String a name ++ s) gs).
  set (g := fun st' : mstate =>
              MState (prev st') (rest st')
                     ((1%nat, consumed (rest st) (rest st')) :: groups st')).
  apply heads_cat_skip with
    (mid := MState (last_of p (String a name)) s ((1%nat, String a name) :: gs))
    (short := map g (map (move st) short))
    (more := map g (map (move st) more)).
  - cbn [run]. fold g. subst st. cbn [rest append plus_from].
    rewrite (nonspace_is_dot _ Ha), Hrep, !map_app. cbn [map]. f_equal. f_equal.
    unfold g, move. cbn [prev rest groups fst snd last_of].
    change (String a (name ++ s)) with (String a name ++ s).
    now rewrite consumed_app.
  - intros x Hx. apply in_map_iff in Hx. destruct Hx as [y [<- Hy]].
    apply in_map_iff in Hy. destruct Hy as [z [<- Hz]].
    apply cat_dead, plus_dead. cbn [rest g move]. now apply Hshort.
  - exact HK.
Qed.

(** *** The ranked row *)

Lemma heads_bol (s : string) : heads Bol (start s) (start s).
Proof. unfold heads. cbn [run start prev]. eauto. Qed.

Lemma heads_wordb (d : ascii) (s : string) (gs : list (nat * string)) :
  Str.isdigit d = true -> column_end s ->
  heads WordB (MState (Some d) s gs) (MState (Some d) s gs).
Proof.
  intros Hd Hs. unfold heads. cbn [run prev rest word_at].
  rewrite (digit_is_word _ Hd).
  destruct Hs as [->|[a [s' [-> Ha]]]]; cbn [next word_at].
  - cbn [xorb]. eauto.
  - rewrite (space_not_word _ Ha). cbn [xorb]. eauto.
Qed.

Lemma blanks_column_end (w s : string) : blanks w -> column_end (w ++ s).
Proof.
  intros [Hne Hw]. destruct w as [|a w]; [congruence|].
  cbn [all_cls cls_match] in Hw. apply andb_true_iff in Hw.
  right. exists a, (w ++ s)%string. now split.
Qed.

Lemma stops_space_digits (w s : string) : digits w -> stops Space (w ++ s) = true.
Proof.
  intros [Hne Hw]. destruct w as [|a w]; [congruence|].
  cbn [all_cls cls_match] in Hw. apply andb_true_iff in Hw. destruct Hw as [Ha _].
  cbn [append stops cls_match]. now rewrite (digit_not_space _ Ha).
Qed.

Lemma stops_space_unsigned (w s : string) :
  unsigned_numeral w -> stops Space (w ++ s) = true.
Proof.
  intros Hu. destruct (unsigned_head Hu) as [c [w' [-> Hc]]].
  cbn [append stops cls_match]. now rewrite (digit_not_space _ Hc).
Qed.

Lemma stops_space_signed (w s : string) :
  signed_numeral w -> stops Space (w ++ s) = true.
Proof.
  intros [Hu|[u [_ ->]]]; [now apply stops_space_unsigned | reflexivity].
Qed.

Lemma stops_space_name (w s : string) :
  w <> "" -> no_space w = true -> stops Space (w ++ s) = true.
Proof.
  intros Hne Hw. destruct w as [|a w]; [congruence|].
  cbn [no_space] in Hw. apply andb_true_iff in Hw. destruct Hw as [Ha _].
  exact Ha.
Qed.

(** [pat_cols] on a row of the ranked layout: blanks or nothing, a rank,
    then name, rating and uncertainty, each after blanks, the name
    without a blank in it, and nothing or further columns behind.  The
    three groups are the name, the rating and the uncertainty. *)
Lemma pat_cols_row (s0 rank s1 name s2 elo s3 err tail : string) :
  all_cls Space s0 = true -> digits rank -> blanks s1 ->
  name <> "" -> no_space name = true -> blanks s2 ->
  signed_numeral elo -> blanks s3 -> unsigned_numeral err ->
  column_end tail ->
  match_ pat_cols
    (s0 ++ rank ++ s1 ++ name ++ s2 ++ elo ++ s3 ++ err ++ tail)
  = Some [(3%nat, err); (2%nat, elo); (1%nat, name)].
Proof.
  intros H0 Hrank H1 Hne Hname H2 Helo H3 Herr Htail.
  set (p4 := last_of (last_of (last_of (last_of None s0) rank) s1) name).
  destruct (@heads_signed elo (s3 ++ err ++ tail) (last_of p4 s2)
              [(1%nat, name)] Helo
              (column_end_num_end (blanks_column_end _ H3)))
    as [d2 [Hd2 Hh2]].
  destruct (@heads_unsigned err tail (last_of (Some d2) s3)
              [(2%nat, elo); (1%nat, name)] Herr (column_end_num_end Htail))
    as [d3 [Hd3 Hh3]].
  apply (@heads_match pat_cols _
           (MState (Some d3) tail [(3%nat, err); (2%nat, elo); (1%nat, name)])).
  unfold pat_cols.
  eapply heads_cat; [apply heads_bol|]. unfold start.
  eapply heads_cat;
    [apply heads_star; [exact H0 | now apply stops_space_digits]|].
  eapply heads_cat;
    [apply heads_plus;
       [apply Hrank | apply Hrank |
        apply column_end_stops;
          [discriminate | discriminate | now apply blanks_column_end]]|].
  eapply heads_cat;
    [apply heads_plus;
       [apply H1 | apply H1 | now apply stops_space_name]|].
  apply heads_name; [exact Hne | exact Hname|]. fold p4.
  eapply heads_cat;
    [apply heads_plus;
       [apply H2 | apply H2 | now apply stops_space_signed]|].
  eapply heads_cat; [apply heads_group; exact Hh2|].
  eapply heads_cat;
    [apply heads_plus;
       [apply H3 | apply H3 | now apply stops_space_unsigned]|].
  eapply heads_cat; [apply heads_group; exact Hh3|].
  now apply heads_wordb.
Qed.

Lemma strip_no_space (w : string) : no_space w = true -> Str.strip w = w.
Proof.
  intros Hw. assert (Hr : Str.rstrip w = w).
  { induction w as [|a w IH]; [reflexivity|].
    cbn [no_space] in Hw. apply andb_true_iff in Hw. destruct Hw as [Ha Hw].
    apply negb_true_iff in Ha. cbn [Str.rstrip]. rewrite Ha, (IH Hw).
    reflexivity. }
  unfold Str.strip. rewrite Hr. destruct w as [|a w]; [reflexivity|].
  cbn [no_space] in Hw. apply andb_true_iff in Hw. destruct Hw as [Ha _].
  apply negb_true_iff in Ha. cbn [Str.lstrip]. now rewrite Ha.
Qed.

Lemma lstrip_blanks (s0 r : string) :
  all_cls Space s0 = true -> Str.lstrip (s0 ++ r) = Str.lstrip r.
Proof.
  induction s0 as [|a s0 IH]; intros H; [reflexivity|].
  cbn [all_cls cls_match] in H. apply andb_true_iff in H. destruct H as [Ha H].
  cbn [append Str.lstrip]. rewrite Ha. now apply IH.
Qed.

(** A line whose first character after the leading blanks is not a
    blank is not a blank line. *)
Lemma not_blank_line (ln s0 r : string) :
  Str.rstrip ln = (s0 ++ r)%string -> all_cls Space s0 = true ->
  r <> "" -> stops Space r = true ->
  Str.is_empty (Str.strip (Str.rstrip ln)) = false.
Proof.
  intros Hln H0 Hne Hr. unfold Str.strip.
  rewrite ParseMore.rstrip_idem, Hln, (@lstrip_blanks s0 r H0).
  destruct r as [|a r]; [congruence|]. cbn [stops] in Hr.
  apply negb_true_iff in Hr. cbn [Str.lstrip].
  change (cls_match Space a) with (Str.isspace a) in Hr. now rewrite Hr.
Qed.

Lemma record_of_row (name elo err : string) :
  no_space name = true -> signed_numeral elo -> unsigned_numeral err ->
  exists e s,
    Str.float elo = Some e /\ Str.float err = Some s /\ (0 <= s)%Qc
    /\ record_of [(3%nat, err); (2%nat, elo); (1%nat, name)]
       = Ret (name, (e, s)).
Proof.
  intros Hname Helo Herr.
  destruct (float_signed Helo) as [e He].
  destruct (float_unsigned Herr) as [s [Hs Hpos]].
  exists e, s. repeat split; auto.
  unfold record_of, group_text, to_float. cbn [Re.group Nat.eqb res_bind].
  rewrite He, Hs. cbn [res_bind]. now rewrite (@strip_no_space name Hname).
Qed.

(** X6. A row of the ranked layout is read as what it says.  Once its
    trailing blanks are gone, let the line be: blanks or nothing, a
    rank in digits, blanks, a name with no blank in it, blanks, a signed
    decimal, blanks, an unsigned decimal, and then nothing or a blank
    and further columns.  The loop body stores, under that name, the
    values of the two decimals. *)
Theorem ranked_row_read
        (ln s0 rank s1 name s2 elo s3 err tail : string) :
  Str.rstrip ln
  = (s0 ++ rank ++ s1 ++ name ++ s2 ++ elo ++ s3 ++ err ++ tail)%string ->
  all_cls Space s0 = true -> digits rank -> blanks s1 ->
  name <> "" -> no_space name = true -> blanks s2 ->
  signed_numeral elo -> blanks s3 -> unsigned_numeral err ->
  column_end tail ->
  exists e s,
    Str.float elo = Some e /\ Str.float err = Some s /\ (0 <= s)%Qc
    /\ extract ln = Ret (Some (name, (e, s)))
    /\ forall ratings,
         scan_line ratings ln = Ret (Dict.set ratings name (e, s)).
Proof.
  intros Hln H0 Hrank H1 Hne Hname H2 Helo H3 Herr Htail.
  destruct (@record_of_row name elo err Hname Helo Herr) as [e [s [He [Hs [Hpos Hrec]]]]].
  exists e, s. split; [exact He|]. split; [exact Hs|]. split; [exact Hpos|].
  assert (Hex : extract ln = Ret (Some (name, (e, s)))).
  { unfold extract.
    rewrite (@not_blank_line ln s0
               (rank ++ s1 ++ name ++ s2 ++ elo ++ s3 ++ err ++ tail) Hln H0).
    - rewrite Hln. unfold first_match.
      rewrite (@pat_cols_row s0 rank s1 name s2 elo s3 err tail
                 H0 Hrank H1 Hne Hname H2 Helo H3 Herr Htail).
      cbn [or_else]. rewrite Hrec. reflexivity.
    - destruct Hrank as [Hr _]. destruct rank; [congruence | discriminate].
    - now apply stops_space_digits. }
  split; [exact Hex|]. intros ratings. unfold scan_line. now rewrite Hex.
Qed.

Lemma ranked_row_read_witness :
  exists e s,
    Str.float "120" = Some e /\ Str.float "35" = Some s /\ (0 <= s)%Qc
    /\ extract "   1 Stockfish   120   35   35   100   60%"
       = Ret (Some ("Stockfish", (e, s)))
    /\ forall ratings,
         scan_line ratings "   1 Stockfish   120   35   35   100   60%"
         = Ret (Dict.set ratings "Stockfish" (e, s)).
Proof.
  apply (@ranked_row_read
           "   1 Stockfish   120   35   35   100   60%"
           "   " "1" " " "Stockfish" "   " "120" "   " "35"
           "   35   100   60%").
  - reflexivity.
  - reflexivity.
  - split; [discriminate | reflexivity].
  - split; [discriminate | reflexivity].
  - discriminate.
  - reflexivity.
  - split; [discriminate | reflexivity].
  - left. exists "120". split; [split; [discriminate | reflexivity] | now left].
  - split; [discriminate | reflexivity].
  - exists "35". split; [split; [discriminate | reflexivity] | now left].
  - right. exists " "%char, "  35   100   60%". split; reflexivity.
Defined.

(** *** When a pattern cannot match *)

Lemma cat_dead_r (r1 r2 : regex) (st : mstate) :
  (forall mid, In mid (run r1 st) -> run r2 mid = []) ->
  run (Cat r1 r2) st = [].
Proof. intros H. cbn [run]. now apply flat_map_dead. Qed.

Lemma repeat_space_stops_digit (s0 r : string) :
  all_cls Space s0 = true -> stops Space r = true -> stops Digit r = true ->
  forall p ps, In ps (repeat_from Space p (s0 ++ r)) ->
               stops Digit (snd ps) = true.
Proof.
  intros H0 Hsp Hdg. induction s0 as [|a s0 IH]; intros p ps.
  - cbn [append]. destruct r as [|b r]; cbn [repeat_from].
    + intros [<-|[]]. reflexivity.
    + cbn [stops] in Hsp. apply negb_true_iff in Hsp. rewrite Hsp.
      intros [<-|[]]. exact Hdg.
  - cbn [all_cls cls_match] in H0. apply andb_true_iff in H0.
    destruct H0 as [Ha H0]. cbn [append repeat_from cls_match]. rewrite Ha.
    intros [<-|Hin].
    + cbn [snd stops cls_match]. now rewrite (space_not_digit _ Ha).
    + exact (IH H0 _ _ Hin).
Qed.

(** [pat_cols] wants a digit after the leading blanks. *)
Lemma pat_cols_dead (s0 r : string) :
  all_cls Space s0 = true -> stops Space r = true -> stops Digit r = true ->
  match_ pat_cols (s0 ++ r) = None.
Proof.
  intros H0 Hsp Hdg. unfold match_, pat_cols.
  replace (run _ (start (s0 ++ r))) with (@nil mstate); [reflexivity|].
  symmetry. apply cat_dead_r. intros st0 [<-|[]].
  apply cat_dead_r. intros mid Hmid. apply cat_dead, plus_dead.
  cbn [run start prev rest] in Hmid. apply in_map_iff in Hmid.
  destruct Hmid as [ps [<- Hps]]. apply in_rev in Hps. cbn [move rest].
  exact (repeat_space_stops_digit s0 r H0 Hsp Hdg _ _ Hps).
Qed.

Lemma every_app (f : ascii -> bool) (u v : string) :
  every f (u ++ v) = every f u && every f v.
Proof.
  induction u as [|a u IH]; cbn [append every]; [reflexivity|].
  now rewrite IH, andb_assoc.
Qed.

Lemma run_keeps_lacks (c : ascii) (r : regex) (st st' : mstate) :
  In st' (run r st) -> lacks c (rest st) = true -> lacks c (rest st') = true.
Proof.
  intros Hin Hl. destruct (run_sound r _ _ Hin) as [w [Hw _]].
  unfold lacks in *. rewrite Hw, every_app in Hl.
  now apply andb_true_iff in Hl.
Qed.

Lemma lacks_next (c : ascii) (s : string) :
  lacks c s = true -> next s <> Some c.
Proof.
  destruct s as [|a s]; cbn [next]; [discriminate|].
  unfold lacks. cbn [every]. intros H [= ->].
  now rewrite Ascii.eqb_refl in H.
Qed.

Ltac dead_by Hl :=
  repeat first
    [ apply cat_dead; apply lit_dead_next; apply lacks_next; exact Hl
    | apply cat_dead_r;
      let mid := fresh "mid" in
      let Hmid := fresh "Hmid" in
      intros mid Hmid; apply (run_keeps_lacks _ _ _ _ Hmid) in Hl; clear Hmid ].

(** [pat_pm] wants a colon, and a plus sign. *)
Lemma pat_pm_dead (c : ascii) (l : string) :
  c = ":"%char \/ c = "+"%char -> lacks c l = true ->
  match_ pat_pm l = None.
Proof.
  intros Hc Hl. unfold match_, pat_pm.
  replace (run _ (start l)) with (@nil mstate); [reflexivity|].
  symmetry. change l with (rest (start l)) in Hl.
  destruct Hc as [-> | ->]; dead_by Hl.
Qed.

Lemma every_weaken (f g : ascii -> bool) (w : string) :
  (forall a, f a = true -> g a = true) -> every f w = true -> every g w = true.
Proof.
  intros Hfg. induction w as [|a w IH]; cbn [every]; [reflexivity|].
  intros H. apply andb_true_iff in H. destruct H as [Ha Hw].
  now rewrite (Hfg _ Ha), IH.
Qed.

Lemma all_cls_every (k : cls) (w : string) : all_cls k w = every (cls_match k) w.
Proof.
  induction w as [|a w IH]; cbn [all_cls every]; [reflexivity | now rewrite IH].
Qed.

Lemma blanks_lack (c : ascii) (w : string) :
  Str.isspace c = false -> all_cls Space w = true -> lacks c w = true.
Proof.
  intros Hc Hw. rewrite all_cls_every in Hw. unfold lacks.
  apply every_weaken with (2 := Hw). intros a Ha.
  destruct (Ascii.eqb_spec a c) as [->|]; [|reflexivity].
  cbn [cls_match] in Ha. congruence.
Qed.

Lemma digits_lack (c : ascii) (w : string) :
  Str.isdigit c = false -> all_cls Digit w = true -> lacks c w = true.
Proof.
  intros Hc Hw. rewrite all_cls_every in Hw. unfold lacks.
  apply every_weaken with (2 := Hw). intros a Ha.
  destruct (Ascii.eqb_spec a c) as [->|]; [|reflexivity].
  cbn [cls_match] in Ha. congruence.
Qed.

Lemma lacks_app (c : ascii) (u v : string) :
  lacks c u = true -> lacks c v = true -> lacks c (u ++ v) = true.
Proof. unfold lacks. intros Hu Hv. now rewrite every_app, Hu, Hv. Qed.

Lemma unsigned_lacks (c : ascii) (w : string) :
  Str.isdigit c = false -> c <> "."%char ->
  unsigned_numeral w -> lacks c w = true.
Proof.
  intros Hc Hp [ip [[_ Hip] [->|[fp [[_ Hfp] ->]]]]].
  - now apply digits_lack.
  - apply lacks_app; [now apply digits_lack|].
    apply lacks_app; [|now apply digits_lack].
    unfold lacks. cbn [every]. destruct (Ascii.eqb_spec "."%char c); [|reflexivity].
    congruence.
Qed.

Lemma signed_lacks (c : ascii) (w : string) :
  Str.isdigit c = false -> c <> "."%char -> c <> "-"%char ->
  signed_numeral w -> lacks c w = true.
Proof.
  intros Hc Hp Hm [Hu|[u [Hu ->]]]; [now apply unsigned_lacks|].
  apply lacks_app; [|now apply unsigned_lacks].
  unfold lacks. cbn [every]. destruct (Ascii.eqb_spec "-"%char c); [|reflexivity].
  congruence.
Qed.

(** *** The bare and the colon rows *)

Lemma repeat_from_every (ok : ascii -> bool) (name s : string) :
  (forall a, ok a = true -> cls_match Dot a = true) ->
  every ok name = true ->
  forall p, exists short more,
    repeat_from Dot p (name ++ s) = short ++ (last_of p name, s) :: more
    /\ forall x, In x short ->
                 exists a r, snd x = String a r /\ ok a = true.
Proof.
  intros Hdot Hn. induction name as [|a name IH]; intros p.
  - exists [], (tl (repeat_from Dot p s)). split; [|intros x []].
    cbn [append last_of app]. destruct s; reflexivity.
  - cbn [every] in Hn. apply andb_true_iff in Hn. destruct Hn as [Ha Hn].
    destruct (IH Hn (Some a)) as [short [more [Hrep Hshort]]].
    exists ((p, String a (name ++ s)) :: short), more. split.
    + cbn [append repeat_from last_of]. rewrite (Hdot _ Ha), Hrep.
      reflexivity.
    + intros x [<-|Hx]; [|now apply Hshort].
      exists a, (name ++ s)%string. now split.
Qed.

(** The lazy group, whatever follows it: it gives the name up when what
    follows cannot start at any character of the name. *)
Lemma heads_lazy_group (ok : ascii -> bool) (name s : string)
      (p : option ascii) (gs : list (nat * string)) (K : regex)
      (final : mstate) :
  (forall a, ok a = true -> cls_match Dot a = true) ->
  (forall x a r, rest x = String a r -> ok a = true -> run K x = []) ->
  name <> "" -> every ok name = true ->
  heads K (MState (last_of p name) s ((1%nat, name) :: gs)) final ->
  heads (Group 1 (PlusLazy Dot) +> K) (MState p (name ++ s) gs) final.
Proof.
  intros Hdot Hdead Hne Hn HK. destruct name as [|a name]; [congruence|].
  cbn [every] in Hn. apply andb_true_iff in Hn. destruct Hn as [Ha Hn].
  destruct (repeat_from_every ok name s Hdot Hn (Some a))
    as [short [more [Hrep Hshort]]].
  set (st := MState p (String a name ++ s) gs).
  set (g := fun st' : mstate =>
              MState (prev st') (rest st')
                     ((1%nat, consumed (rest st) (rest st')) :: groups st')).
  apply heads_cat_skip with
    (mid := MState (last_of p (String a name)) s ((1%nat, String a name) :: gs))
    (short := map g (map (move st) short))
    (more := map g (map (move st) more)).
  - cbn [run]. fold g. subst st. cbn [rest append plus_from].
    rewrite (Hdot _ Ha), Hrep, !map_app. cbn [map]. f_equal. f_equal.
    unfold g, move. cbn [prev rest groups fst snd last_of].
    change (String a (name ++ s)) with (String a name ++ s).
    now rewrite consumed_app.
  - intros x Hx. apply in_map_iff in Hx. destruct Hx as [y [<- Hy]].
    apply in_map_iff in Hy. destruct Hy as [z [<- Hz]].
    destruct (Hshort _ Hz) as [b [r [Hsnd Hb]]].
    apply (Hdead _ b r); [|exact Hb]. cbn [rest g move]. exact Hsnd.
  - exact HK.
Qed.

Lemma plain_nonspace (a : ascii) : plain a = true -> Str.isspace a = false.
Proof.
  unfold plain. intros H. apply andb_true_iff in H. destruct H as [H _].
  now apply negb_true_iff in H.
Qed.

Lemma plain_no_space (w : string) : every plain w = true -> no_space w = true.
Proof.
  induction w as [|a w IH]; cbn [every no_space]; [reflexivity|].
  intros H. apply andb_true_iff in H. destruct H as [Ha Hw].
  now rewrite (plain_nonspace _ Ha), IH.
Qed.

Lemma no_space_every (w : string) :
  no_space w = true -> every (fun a => negb (Str.isspace a)) w = true.
Proof.
  induction w as [|a w IH]; cbn [every no_space]; [reflexivity|].
  intros H. apply andb_true_iff in H. destruct H as [Ha Hw].
  now rewrite Ha, IH.
Qed.

Lemma heads_eol (p : option ascii) (gs : list (nat * string)) :
  heads Eol (MState p "" gs) (MState p "" gs).
Proof. unfold heads. cbn [run rest]. eauto. Qed.

Lemma heads_star_end (p : option ascii) (gs : list (nat * string)) :
  heads (Star Space) (MState p "" gs) (MState p "" gs).
Proof. exact (@heads_star Space "" "" p gs eq_refl eq_refl). Qed.

Lemma num_end_after_blanks (b s : string) :
  all_cls Space b = true -> num_end s -> num_end (b ++ s).
Proof.
  destruct b as [|a b]; [now intros|]. cbn [all_cls cls_match].
  intros H _. apply andb_true_iff in H. destruct H as [Ha _].
  cbn [append num_end]. split; [now apply space_not_digit|].
  intros ->. discriminate Ha.
Qed.

(** [pat_fb] on a row of the bare layout. *)
Lemma pat_fb_row (s0 name s2 elo s3 err : string) :
  all_cls Space s0 = true -> name <> "" -> no_space name = true ->
  blanks s2 -> signed_numeral elo -> blanks s3 -> unsigned_numeral err ->
  match_ pat_fb (s0 ++ name ++ s2 ++ elo ++ s3 ++ err)
  = Some [(3%nat, err); (2%nat, elo); (1%nat, name)].
Proof.
  intros H0 Hne Hname H2 Helo H3 Herr.
  replace (s0 ++ name ++ s2 ++ elo ++ s3 ++ err)%string
    with (s0 ++ name ++ s2 ++ elo ++ s3 ++ err ++ "")%string
    by now rewrite append_empty_r.
  set (p4 := last_of (last_of None s0) name).
  destruct (@heads_signed elo (s3 ++ err ++ "") (last_of p4 s2)
              [(1%nat, name)] Helo
              (column_end_num_end (blanks_column_end _ H3)))
    as [d2 [Hd2 Hh2]].
  destruct (@heads_unsigned err "" (last_of (Some d2) s3)
              [(2%nat, elo); (1%nat, name)] Herr I)
    as [d3 [Hd3 Hh3]].
  apply (@heads_match pat_fb _
           (MState (Some d3) "" [(3%nat, err); (2%nat, elo); (1%nat, name)])).
  unfold pat_fb.
  eapply heads_cat; [apply heads_bol|]. unfold start.
  eapply heads_cat;
    [apply heads_star; [exact H0 | now apply stops_space_name]|].
  apply heads_name; [exact Hne | exact Hname|]. fold p4.
  eapply heads_cat;
    [apply heads_plus;
       [apply H2 | apply H2 | now apply stops_space_signed]|].
  eapply heads_cat; [apply heads_group; exact Hh2|].
  eapply heads_cat;
    [apply heads_plus;
       [apply H3 | apply H3 | now apply stops_space_unsigned]|].
  eapply heads_cat; [apply heads_group; exact Hh3|].
  eapply heads_cat; [apply heads_star_end | apply heads_eol].
Qed.

Lemma colon_dead (K : regex) (x : mstate) (a : ascii) (r : string) :
  rest x = String a r -> plain a = true ->
  run (Star Space +> Lit ":" +> K) x = [].
Proof.
  intros Hrest Ha. unfold plain in Ha. apply andb_true_iff in Ha.
  destruct Ha as [Hsp Hcolon]. apply negb_true_iff in Hsp.
  apply negb_true_iff in Hcolon.
  apply cat_dead_r. intros mid Hmid. cbn [run] in Hmid.
  rewrite Hrest in Hmid. cbn [repeat_from cls_match] in Hmid.
  rewrite Hsp in Hmid. cbn [rev app map] in Hmid.
  destruct Hmid as [<-|[]]. apply cat_dead. cbn [run move rest snd].
  now rewrite Hcolon.
Qed.

Lemma plain_is_dot (a : ascii) : plain a = true -> cls_match Dot a = true.
Proof. intros H. now apply nonspace_is_dot, plain_nonspace. Qed.

(** [pat_pm] on a row of the colon layout: the blanks around the colon
    and around [+/-] may be missing. *)
Lemma pat_pm_row (s0 name b1 b2 elo b3 b4 err : string) :
  all_cls Space s0 = true -> name <> "" -> every plain name = true ->
  all_cls Space b1 = true -> all_cls Space b2 = true ->
  signed_numeral elo ->
  all_cls Space b3 = true -> all_cls Space b4 = true ->
  unsigned_numeral err ->
  match_ pat_pm
    (s0 ++ name ++ b1 ++ ":" ++ b2 ++ elo ++ b3 ++ "+/-" ++ b4 ++ err)
  = Some [(3%nat, err); (2%nat, elo); (1%nat, name)].
Proof.
  intros H0 Hne Hname Hb1 Hb2 Helo Hb3 Hb4 Herr.
  replace (s0 ++ name ++ b1 ++ ":" ++ b2 ++ elo ++ b3 ++ "+/-" ++ b4 ++ err)%string
    with (s0 ++ name ++ b1 ++ ":" ++ b2 ++ elo ++ b3 ++ "+/-" ++ b4 ++ err ++ "")%string
    by now rewrite append_empty_r.
  set (p4 := last_of (last_of None s0) name).
  assert (Hend : num_end (b3 ++ "+/-" ++ b4 ++ err ++ "")).
  { apply num_end_after_blanks; [exact Hb3|]. cbn [append num_end].
    split; [reflexivity | discriminate]. }
  destruct (@heads_signed elo (b3 ++ "+/-" ++ b4 ++ err ++ "")
              (last_of (Some ":"%char) b2) [(1%nat, name)] Helo Hend)
    as [d2 [Hd2 Hh2]].
  destruct (@heads_unsigned err "" (last_of (Some "-"%char) b4)
              [(2%nat, elo); (1%nat, name)] Herr I)
    as [d3 [Hd3 Hh3]].
  apply (@heads_match pat_pm _
           (MState (Some d3) "" [(3%nat, err); (2%nat, elo); (1%nat, name)])).
  unfold pat_pm.
  eapply heads_cat; [apply heads_bol|]. unfold start.
  eapply heads_cat;
    [apply heads_star;
       [exact H0 | apply stops_space_name; [exact Hne | now apply plain_no_space]]|].
  apply (@heads_lazy_group plain);
    [exact plain_is_dot | intros x a r; apply colon_dead | exact Hne | exact Hname|].
  fold p4.
  eapply heads_cat; [apply heads_star; [exact Hb1 | reflexivity]|].
  cbn [append].
  eapply heads_cat; [apply heads_lit|].
  eapply heads_cat;
    [apply heads_star; [exact Hb2 | now apply stops_space_signed]|].
  eapply heads_cat; [apply heads_group; exact Hh2|].
  eapply heads_cat; [apply heads_star; [exact Hb3 | reflexivity]|].
  eapply heads_cat; [apply heads_lit|].
  eapply heads_cat; [apply heads_lit|].
  eapply heads_cat; [apply heads_lit|].
  eapply heads_cat;
    [apply heads_star; [exact Hb4 | now apply stops_space_unsigned]|].
  eapply heads_cat; [apply heads_group; exact Hh3|].
  eapply heads_cat; [apply heads_star_end | apply heads_eol].
Qed.

Lemma stops_app (k : cls) (w s : string) :
  w <> "" -> stops k w = true -> stops k (w ++ s) = true.
Proof. destruct w; [congruence | now intros]. Qed.

(** X7. A row of the bare layout is read as what it says.  Once its
    trailing blanks are gone, let the line be: blanks or nothing, a name
    with no blank in it that does not begin with a digit and holds no
    colon, or no plus sign, then blanks, a signed decimal, blanks and an
    unsigned decimal.  The first two patterns fail, the third matches,
    and the loop body stores, under that name, the values of the two
    decimals. *)
Theorem bare_row_read (ln s0 name s2 elo s3 err : string) :
  Str.rstrip ln = (s0 ++ name ++ s2 ++ elo ++ s3 ++ err)%string ->
  all_cls Space s0 = true ->
  name <> "" -> no_space name = true -> stops Digit name = true ->
  lacks ":" name = true \/ lacks "+" name = true ->
  blanks s2 -> signed_numeral elo -> blanks s3 -> unsigned_numeral err ->
  match_ pat_cols (Str.rstrip ln) = None
  /\ match_ pat_pm (Str.rstrip ln) = None
  /\ exists e s,
       Str.float elo = Some e /\ Str.float err = Some s /\ (0 <= s)%Qc
       /\ extract ln = Ret (Some (name, (e, s)))
       /\ forall ratings,
            scan_line ratings ln = Ret (Dict.set ratings name (e, s)).
Proof.
  intros Hln H0 Hne Hname Hdig Hlack H2 Helo H3 Herr.
  assert (Hsp : stops Space (name ++ s2 ++ elo ++ s3 ++ err) = true)
    by now apply stops_space_name.
  assert (Ha : match_ pat_cols (Str.rstrip ln) = None).
  { rewrite Hln. apply pat_cols_dead; [exact H0 | exact Hsp|].
    now apply stops_app. }
  assert (Hb : match_ pat_pm (Str.rstrip ln) = None).
  { rewrite Hln. destruct H2 as [_ H2]. destruct H3 as [_ H3].
    destruct Hlack as [Hl|Hl];
      [apply (@pat_pm_dead ":"%char); [now left|]
      |apply (@pat_pm_dead "+"%char); [now right|]];
      (apply lacks_app; [now apply blanks_lack|]);
      (apply lacks_app; [exact Hl|]);
      (apply lacks_app; [now apply blanks_lack|]);
      (apply lacks_app;
         [apply signed_lacks; [reflexivity | discriminate | discriminate | exact Helo]|]);
      (apply lacks_app; [now apply blanks_lack|]);
      (apply unsigned_lacks; [reflexivity | discriminate | exact Herr]). }
  split; [exact Ha|]. split; [exact Hb|].
  destruct (@record_of_row name elo err Hname Helo Herr)
    as [e [s [He [Hs [Hpos Hrec]]]]].
  exists e, s. split; [exact He|]. split; [exact Hs|]. split; [exact Hpos|].
  assert (Hex : extract ln = Ret (Some (name, (e, s)))).
  { unfold extract.
    rewrite (@not_blank_line ln s0 (name ++ s2 ++ elo ++ s3 ++ err) Hln H0).
    - unfold first_match. rewrite Ha, Hb, Hln.
      rewrite (@pat_fb_row s0 name s2 elo s3 err H0 Hne Hname H2 Helo H3 Herr).
      cbn [or_else]. rewrite Hrec. reflexivity.
    - destruct name; [congruence | discriminate].
    - exact Hsp. }
  split; [exact Hex|]. intros ratings. unfold scan_line. now rewrite Hex.
Qed.

Lemma bare_row_read_witness :
  match_ pat_cols (Str.rstrip "EngineA 10 5") = None
  /\ match_ pat_pm (Str.rstrip "EngineA 10 5") = None
  /\ exists e s,
       Str.float "10" = Some e /\ Str.float "5" = Some s /\ (0 <= s)%Qc
       /\ extract "EngineA 10 5" = Ret (Some ("EngineA", (e, s)))
       /\ forall ratings,
            scan_line ratings "EngineA 10 5"
            = Ret (Dict.set ratings "EngineA" (e, s)).
Proof.
  apply (@bare_row_read "EngineA 10 5" "" "EngineA" " " "10" " " "5").
  - reflexivity.
  - reflexivity.
  - discriminate.
  - reflexivity.
  - reflexivity.
  - left. reflexivity.
  - split; [discriminate | reflexivity].
  - left. exists "10". split; [split; [discriminate | reflexivity] | now left].
  - split; [discriminate | reflexivity].
  - exists "5". split; [split; [discriminate | reflexivity] | now left].
Defined.

(** X8. A row of the colon layout is read as what it says.  Once its
    trailing blanks are gone, let the line be: blanks or nothing, a name
    with neither blank nor colon in it that does not begin with a digit,
    a colon, a signed decimal, [+/-] and an unsigned decimal, with or
    without blanks around the colon and around [+/-].  The first pattern
    fails, the second matches, and the loop body stores, under that
    name, the values of the two decimals. *)
Theorem colon_row_read (ln s0 name b1 b2 elo b3 b4 err : string) :
  Str.rstrip ln
  = (s0 ++ name ++ b1 ++ ":" ++ b2 ++ elo ++ b3 ++ "+/-" ++ b4 ++ err)%string ->
  all_cls Space s0 = true ->
  name <> "" -> every plain name = true -> stops Digit name = true ->
  all_cls Space b1 = true -> all_cls Space b2 = true ->
  signed_numeral elo ->
  all_cls Space b3 = true -> all_cls Space b4 = true ->
  unsigned_numeral err ->
  match_ pat_cols (Str.rstrip ln) = None
  /\ exists e s,
       Str.float elo = Some e /\ Str.float err = Some s /\ (0 <= s)%Qc
       /\ extract ln = Ret (Some (name, (e, s)))
       /\ forall ratings,
            scan_line ratings ln = Ret (Dict.set ratings name (e, s)).
Proof.
  intros Hln H0 Hne Hplain Hdig Hb1 Hb2 Helo Hb3 Hb4 Herr.
  pose proof (plain_no_space _ Hplain) as Hname.
  assert (Hsp : stops Space
                  (name ++ b1 ++ ":" ++ b2 ++ elo ++ b3 ++ "+/-" ++ b4 ++ err)
                = true)
    by now apply stops_space_name.
  assert (Ha : match_ pat_cols (Str.rstrip ln) = None).
  { rewrite Hln. apply pat_cols_dead; [exact H0 | exact Hsp|].
    now apply stops_app. }
  split; [exact Ha|].
  destruct (@record_of_row name elo err Hname Helo Herr)
    as [e [s [He [Hs [Hpos Hrec]]]]].
  exists e, s. split; [exact He|]. split; [exact Hs|]. split; [exact Hpos|].
  assert (Hex : extract ln = Ret (Some (name, (e, s)))).
  { unfold extract.
    rewrite (@not_blank_line ln s0
               (name ++ b1 ++ ":" ++ b2 ++ elo ++ b3 ++ "+/-" ++ b4 ++ err)
               Hln H0).
    - unfold first_match. rewrite Ha, Hln.
      rewrite (@pat_pm_row s0 name b1 b2 elo b3 b4 err
                 H0 Hne Hplain Hb1 Hb2 Helo Hb3 Hb4 Herr).
      cbn [or_else]. rewrite Hrec. reflexivity.
    - destruct name; [congruence | discriminate].
    - exact Hsp. }
  split; [exact Hex|]. intros ratings. unfold scan_line. now rewrite Hex.
Qed.

Lemma colon_row_read_witness :
  match_ pat_cols (Str.rstrip "EngineB : 85.5 +/- 12.0") = None
  /\ exists e s,
       Str.float "85.5" = Some e /\ Str.float "12.0" = Some s /\ (0 <= s)%Qc
       /\ extract "EngineB : 85.5 +/- 12.0" = Ret (Some ("EngineB", (e, s)))
       /\ forall ratings,
            scan_line ratings "EngineB : 85.5 +/- 12.0"
            = Ret (Dict.set ratings "EngineB" (e, s)).
Proof.
  apply (@colon_row_read "EngineB : 85.5 +/- 12.0"
           "" "EngineB" " " " " "85.5" " " " " "12.0").
  - reflexivity.
  - reflexivity.
  - discriminate.
  - reflexivity.
  - reflexivity.
  - reflexivity.
  - reflexivity.
  - left. exists "85". split; [split; [discriminate | reflexivity]|].
    right. exists "5". split; [split; [discriminate | reflexivity] | reflexivity].
  - reflexivity.
  - reflexivity.
  - exists "12". split; [split; [discriminate | reflexivity]|].
    right. exists "0". split; [split; [discriminate | reflexivity] | reflexivity].
Defined.

End RowFacts.

(* ------------------------------------------------------------------ *)
(** ** Further facts about [mean_center] *)

Module CenterMore.
Import Rate RateMore CenterFacts.
Local Open Scope list_scope.
Local Open Scope Qc_scope.

Lemma sum_added (c : Qc) (xs : list Qc) :
  sum (map (fun x => x + c) xs) = sum xs + of_nat (List.length xs) * c.
Proof.
  induction xs as [|x xs IH]; cbn [List.length map].
  - unfold sum, of_nat. simpl. apply Qc_is_canon. reflexivity.
  - rewrite !sum_cons, IH, of_nat_S. ring.
Qed.

Lemma ratings_shift (c : Qc) (t : ratings_t) :
  ratings_of (shift c t) = map (fun x => x + c) (ratings_of t).
Proof. unfold ratings_of, shift, Dict.values. rewrite !map_map. reflexivity. Qed.

Lemma mean_shift (c : Qc) (t : ratings_t) :
  t <> [] ->
  arithmetic_mean (ratings_of (shift c t)) = arithmetic_mean (ratings_of t) + c.
Proof.
  intros Hne. unfold arithmetic_mean.
  rewrite ratings_shift, sum_added, length_map.
  field. apply of_nat_nonzero. pose proof (ratings_nonempty Hne) as H.
  destruct (ratings_of t); [congruence | discriminate].
Qed.

(** X9. Adding one constant to every rating does not change the centred
    table: the anchor of the backend's scale is removed. *)
Theorem mean_center_shift (c : Qc) (t : ratings_t) :
  Dict.wf t -> mean_center (shift c t) = mean_center t.
Proof.
  intros Hwf. destruct t as [|kv t]; [reflexivity|].
  assert (Hne : kv :: t <> []) by discriminate.
  rewrite (mean_center_map Hwf Hne), mean_center_map.
  - rewrite (mean_shift c Hne). unfold shift. rewrite map_map.
    apply map_ext. intros [k [e s]]. unfold centred. cbn [fst snd].
    do 2 f_equal. ring.
  - unfold Dict.wf, Dict.keys, shift. rewrite map_map. exact Hwf.
  - discriminate.
Qed.

Lemma mean_center_shift_witness :
  mean_center (shift (Q2Qc 1500) table_AB) = mean_center table_AB.
Proof. apply (@mean_center_shift (Q2Qc 1500) table_AB table_AB_wf). Defined.

Lemma get_nonempty (t : ratings_t) (k : string) (v : Qc * Qc) :
  Dict.get t k = Some v -> t <> [].
Proof. destruct t; [discriminate | discriminate]. Qed.

(** X10. In exact arithmetic, centring keeps the distance between any two
    participants, hence their order; and it keeps their uncertainties. *)
Theorem mean_center_spacing (t : ratings_t) (a b : string)
        (ea sa eb sb : Qc) :
  Dict.wf t ->
  Dict.get t a = Some (ea, sa) -> Dict.get t b = Some (eb, sb) ->
  exists da db,
    Dict.get (mean_center t) a = Some (da, sa)
    /\ Dict.get (mean_center t) b = Some (db, sb)
    /\ da - db = ea - eb
    /\ (ea <= eb -> da <= db).
Proof.
  intros Hwf Ha Hb.
  rewrite (mean_center_map Hwf (@get_nonempty t a _ Ha)).
  set (m := arithmetic_mean (ratings_of t)).
  exists (ea - m), (eb - m). rewrite !get_centred, Ha, Hb.
  split; [reflexivity|]. split; [reflexivity|]. split; [ring|].
  intros Hle. apply (proj2 (Qcle_minus_iff (ea - m) (eb - m))).
  replace (eb - m + - (ea - m)) with (eb + - ea) by ring.
  exact (proj1 (Qcle_minus_iff ea eb) Hle).
Qed.

Lemma mean_center_spacing_witness :
  exists da db,
    Dict.get (mean_center table_AB) "EngineB" = Some (da, Q2Qc 12)
    /\ Dict.get (mean_center table_AB) "EngineA" = Some (db, Q2Qc 35)
    /\ da - db = Q2Qc (171 # 2) - Q2Qc 120
    /\ (Q2Qc (171 # 2) <= Q2Qc 120 -> da <= db).
Proof.
  apply (@mean_center_spacing table_AB "EngineB" "EngineA"
           (Q2Qc (171 # 2)) (Q2Qc 12) (Q2Qc 120) (Q2Qc 35) table_AB_wf);
    reflexivity.
Defined.

Lemma ratings_eq_centred (m : Qc) (t : ratings_t) :
  map (centred m) t = t -> ratings_of (map (centred m) t) = ratings_of t.
Proof. now intros ->. Qed.

(** X11. The tables that hold a record and that [mean_center] leaves as
    they are: those whose ratings already add up to zero. *)
Theorem mean_center_fixed (t : ratings_t) :
  Dict.wf t -> t <> [] ->
  (mean_center t = t <-> sum (ratings_of t) = 0).
Proof.
  intros Hwf Hne. rewrite (mean_center_map Hwf Hne). split.
  - intros Hfix. apply ratings_eq_centred in Hfix.
    rewrite <- Hfix, ratings_centred. apply sum_centred.
    now apply ratings_nonempty.
  - intros Hsum. unfold arithmetic_mean. rewrite Hsum.
    replace (0 / of_nat (List.length (ratings_of t))) with 0.
    + apply centred_zero.
    + field. apply of_nat_nonzero. pose proof (ratings_nonempty Hne) as H.
      destruct (ratings_of t); [congruence | discriminate].
Qed.

Lemma mean_center_fixed_witness :
  mean_center [("EngineA", (Q2Qc 100, Q2Qc 30)); ("EngineB", (Q2Qc (-100), Q2Qc 10))]
  = [("EngineA", (Q2Qc 100, Q2Qc 30)); ("EngineB", (Q2Qc (-100), Q2Qc 10))].
Proof.
  apply (@mean_center_fixed
           [("EngineA", (Q2Qc 100, Q2Qc 30)); ("EngineB", (Q2Qc (-100), Q2Qc 10))]).
  - unfold Dict.wf. simpl. repeat constructor; simpl; intuition discriminate.
  - discriminate.
  - apply Qc_is_canon. reflexivity.
Defined.

(** X12. Whatever the backend said of it, a participant that stands alone in
    the table is given the rating 0. *)
Theorem mean_center_single (name : string) (elo sigma : Qc) :
  mean_center [(name, (elo, sigma))] = [(name, (0, sigma))].
Proof.
  rewrite mean_center_map.
  - cbn [map]. unfold centred, arithmetic_mean, ratings_of, Dict.values.
    cbn [map fst snd List.length]. rewrite sum_cons.
    do 3 f_equal.
    replace (of_nat 1) with 1 by (apply Qc_is_canon; reflexivity).
    unfold sum. cbn [fold_left]. field. discriminate.
  - unfold Dict.wf. simpl. repeat constructor. intros [].
  - discriminate.
Qed.

End CenterMore.

(* ------------------------------------------------------------------ *)
(** ** Further facts about the report and about [main] *)

Module ReportMore.
Import Rate RateMore CenterFacts ReportFacts.
Local Open Scope list_scope.
Local Open Scope Qc_scope.

Lemma sum_perm (xs ys : list Qc) : Permutation xs ys -> sum xs = sum ys.
Proof.
  induction 1 as [|x xs ys _ IH|x y xs|xs ys zs _ IH1 _ IH2].
  - reflexivity.
  - now rewrite !sum_cons, IH.
  - rewrite !sum_cons. ring.
  - now rewrite IH1.
Qed.

Lemma elos_perm (rel : ratings_t) :
  Permutation (map elo (build_rows rel)) (ratings_of rel).
Proof.
  rewrite (Permutation_map elo (rows_perm rel)).
  unfold ratings_of, Dict.values, Dict.items. rewrite !map_map. reflexivity.
Qed.

(** X13. Every participant of the table has one row in the report, and no
    more. *)
Theorem one_row_each (rel : ratings_t) :
  Dict.wf rel ->
  NoDup (map name (build_rows rel))
  /\ List.length (build_rows rel) = Dict.len rel.
Proof.
  intros Hwf. split.
  - apply Permutation_NoDup with (Dict.keys rel); [|exact Hwf].
    symmetry. apply names_perm.
  - rewrite (Permutation_length (rows_perm rel)). unfold Dict.len, Dict.items.
    apply length_map.
Qed.

Lemma one_row_each_witness :
  NoDup (map name (build_rows table_AB))
  /\ List.length (build_rows table_AB) = Dict.len table_AB.
Proof. apply (@one_row_each table_AB table_AB_wf). Defined.

(** X14. The ratings printed in a full report add up to zero, whenever the
    table that was centred holds a record. *)
Theorem report_sums_to_zero (raw : ratings_t) :
  Dict.wf raw -> raw <> [] ->
  sum (map elo (build_rows (mean_center raw))) = 0.
Proof.
  intros Hwf Hne. rewrite (sum_perm (elos_perm (mean_center raw))).
  rewrite (mean_center_map Hwf Hne), ratings_centred.
  apply sum_centred. now apply ratings_nonempty.
Qed.

Lemma report_sums_to_zero_witness :
  sum (map elo (build_rows (mean_center table_AB))) = 0.
Proof.
  apply (@report_sums_to_zero table_AB table_AB_wf). discriminate.
Defined.

(** X15. The filter comes after the centring: the one row of a filtered
    report holds the participant's rating minus the mean over all the
    participants, and its uncertainty as parsed. *)
Theorem filtered_row_is_centred (a : args) (raw : ratings_t)
        (target : string) (e s : Qc) (w : io) :
  Dict.wf raw ->
  engine_name a = Some target -> target <> "" ->
  Dict.get raw target = Some (e, s) ->
  report a (mean_center raw) w
  = (IO (stdout w
         ++ [Dumps (engine_payload a
                      (Row target (e - arithmetic_mean (ratings_of raw)) s))
                   None])
        (stderr w),
     Ret tt).
Proof.
  intros Hwf Hname Hne Hget.
  assert (Hraw : raw <> []) by (destruct raw; [discriminate | discriminate]).
  assert (Hmap := mean_center_map Hwf Hraw).
  assert (Hwf' : Dict.wf (mean_center raw)).
  { rewrite Hmap. unfold Dict.wf. rewrite keys_centred. exact Hwf. }
  assert (Hget' : Dict.get (mean_center raw) target
                  = Some (e - arithmetic_mean (ratings_of raw), s)).
  { rewrite Hmap, get_centred, Hget. reflexivity. }
  assert (Hin : In target (Dict.keys (mean_center raw))).
  { apply ParseFacts.in_get in Hget'. unfold Dict.keys.
    change target with (fst (target, (e - arithmetic_mean (ratings_of raw), s))).
    now apply in_map. }
  destruct (@find_present (mean_center raw) target Hin) as [r [Hfind [Hr Hrow]]].
  unfold report. rewrite Hname, (truthy_nonempty Hne), Hfind.
  apply row_in_table in Hrow. rewrite Hr in Hrow. unfold Dict.items in Hrow.
  apply DictFacts.get_in in Hrow; [|exact Hwf'].
  rewrite Hget' in Hrow. injection Hrow as He Hs.
  destruct r as [n e' s']. cbn [name elo sigma] in *. subst. reflexivity.
Qed.

Lemma filtered_row_is_centred_witness :
  report (sample_args (Some "EngineB")) (mean_center table_AB) (IO [] [])
  = (IO [Dumps (engine_payload (sample_args (Some "EngineB"))
                  (Row "EngineB"
                       (Q2Qc (171 # 2) - arithmetic_mean (ratings_of table_AB))
                       (Q2Qc 12)))
               None]
        [],
     Ret tt).
Proof.
  apply (@filtered_row_is_centred (sample_args (Some "EngineB")) table_AB
           "EngineB" (Q2Qc (171 # 2)) (Q2Qc 12) (IO [] []) table_AB_wf).
  - reflexivity.
  - discriminate.
  - reflexivity.
Defined.

End ReportMore.

Module MainMore.
Import Rate RateMore.
Local Open Scope list_scope.

(** X16. The results log is checked first.  When it is not a file the run
    ends with that message and status 1, whatever the state of the
    backend, which is not started. *)
Theorem main_pgn_missing (sys : os) (a : args) :
  isfile sys (pgn a) = false ->
  run_main sys a = Outcome [] [PgnNotFound (pgn a)] 1.
Proof.
  intros H. unfold run_main, main, bind, when. rewrite H. reflexivity.
Qed.

Lemma main_pgn_missing_witness :
  run_main (OS (fun _ => false) (fun _ => true) (fun _ => None))
           (sample_args None)
  = Outcome [] [PgnNotFound "runs/gauntlet.pgn"] 1.
Proof.
  apply (@main_pgn_missing
           (OS (fun _ => false) (fun _ => true) (fun _ => None))
           (sample_args None)).
  reflexivity.
Defined.

(** X17. A backend that ends with a return code other than 0 makes the run
    end with status 1 and a message that carries the code and all the
    backend wrote; what it wrote is not parsed, even when it holds a
    table.  The backend was fed the five commands with the path of the
    results log in the first. *)
Theorem main_backend_failed (sys : os) (a : args)
        (proc : string -> Z * string) (rc : Z) (out : string) :
  isfile sys (pgn a) = true ->
  isfile sys (bayeselo a) = true -> access_x sys (bayeselo a) = true ->
  popen sys (bayeselo a) = Some proc ->
  proc ("readpgn " ++ pgn a ++ nl ++ "elo" ++ nl ++ "mm" ++ nl ++ "ratings"
        ++ nl ++ "x" ++ nl)%string = (rc, out) ->
  rc <> 0%Z ->
  run_main sys a = Outcome [] [BayesEloFailed rc out] 1.
Proof.
  intros Hpgn Hbin Hx Hpopen Hproc Hrc.
  unfold run_main, main, run_bayeselo, bind, when.
  rewrite Hpgn, Hbin, Hx, Hpopen, Hproc.
  destruct (Z.eqb_spec rc 0) as [->|_]; [congruence | reflexivity].
Qed.

Lemma main_backend_failed_witness :
  run_main (OS (fun _ => true) (fun _ => true)
               (fun _ => Some (fun _ => (2%Z, sample_report))))
           (sample_args None)
  = Outcome [] [BayesEloFailed 2 sample_report] 1.
Proof.
  apply (@main_backend_failed
           (OS (fun _ => true) (fun _ => true)
               (fun _ => Some (fun _ => (2%Z, sample_report))))
           (sample_args None) (fun _ => (2%Z, sample_report)) 2 sample_report);
    try reflexivity.
  discriminate.
Defined.

(** X18. A run without filter that gets a table out of the backend prints
    one document: the rows of the centred table, by descending rating,
    under the path of the results log.  Status 0, nothing on the error
    channel. *)
Theorem main_full_report (sys : os) (a : args)
        (proc : string -> Z * string) (out : string) (t : ratings_t) :
  isfile sys (pgn a) = true ->
  isfile sys (bayeselo a) = true -> access_x sys (bayeselo a) = true ->
  popen sys (bayeselo a) = Some proc ->
  proc ("readpgn " ++ pgn a ++ nl ++ "elo" ++ nl ++ "mm" ++ nl ++ "ratings"
        ++ nl ++ "x" ++ nl)%string = (0%Z, out) ->
  scan_lines (Dict.empty _) (scanned_lines out) = Ret t -> t <> [] ->
  engine_name a = None ->
  run_main sys a
  = Outcome [Dumps (payload a (build_rows (mean_center t))) (Some 2%nat)] [] 0.
Proof.
  intros Hpgn Hbin Hx Hpopen Hproc Hscan Hne Hname.
  unfold run_main, main, run_bayeselo, bind, when.
  rewrite Hpgn, Hbin, Hx, Hpopen, Hproc. cbn [negb andb Z.eqb ret].
  rewrite (@ParseFacts.parse_ratings_ret out t Hscan Hne).
  unfold report. rewrite Hname. reflexivity.
Qed.

Lemma main_full_report_witness :
  run_main sample_os (sample_args None)
  = Outcome
      [Dumps (payload (sample_args None)
                (build_rows (mean_center
                   [("EngineA", (Q2Qc 100, Q2Qc 30));
                    ("EngineB", (Q2Qc 0, Q2Qc 20));
                    ("EngineC", (Q2Qc (-100), Q2Qc 10))])))
             (Some 2%nat)]
      [] 0.
Proof.
  apply (@main_full_report sample_os (sample_args None)
           (fun _ => (0%Z, sample_report)) sample_report
           [("EngineA", (Q2Qc 100, Q2Qc 30));
            ("EngineB", (Q2Qc 0, Q2Qc 20));
            ("EngineC", (Q2Qc (-100), Q2Qc 10))]);
    try reflexivity.
  discriminate.
Defined.

End MainMore.

(* ------------------------------------------------------------------ *)
(** ** Facts about gauntlet.py *)

Module GauntletFacts.
Import Gauntlet RateMore.
Local Open Scope string_scope.
Local Open Scope list_scope.

(** *** [str] on integers *)

Lemma to_int_proper (n : Z) :
  Z.to_int n <> Decimal.Pos Decimal.Nil /\ Z.to_int n <> Decimal.Neg Decimal.Nil.
Proof.
  destruct n as [|p|p]; cbn [Z.to_int]; split; try discriminate;
    intros [= H]; exact (DecimalPos.Unsigned.to_uint_nonnil p H).
Qed.

Lemma str_of_int_inj (a b : Z) : str_of_int a = str_of_int b -> a = b.
Proof.
  unfold str_of_int. intros H. apply DecimalZ.to_int_inj.
  apply (f_equal NilZero.int_of_string) in H.
  destruct (to_int_proper a) as [Ha1 Ha2].
  destruct (to_int_proper b) as [Hb1 Hb2].
  rewrite !NilZero.isi in H by assumption. now injection H.
Qed.

(** *** [engine_sf_nodes] *)

Lemma fold_app_flat_map (A B : Type) (f : A -> list B) (l : list A) :
  forall acc, fold_left (fun out x => List.app out (f x)) l acc
              = acc ++ flat_map f l.
Proof.
  induction l as [|x l IH]; intros acc; cbn [fold_left flat_map].
  - now rewrite app_nil_r.
  - now rewrite IH, List.app_assoc.
Qed.

Lemma engine_sf_nodes_flat (sf_path : string) (nodes : list Z) :
  engine_sf_nodes sf_path nodes = flat_map (sf_entry sf_path) nodes.
Proof.
  unfold engine_sf_nodes.
  exact (fold_app_flat_map (sf_entry sf_path) nodes []).
Qed.

Lemma sf_names (sf_path : string) (nodes : list Z) :
  filter is_name (flat_map (sf_entry sf_path) nodes)
  = map (fun n => ("name=SF_N" ++ str_of_int n)%string) nodes.
Proof.
  induction nodes as [|n nodes IH]; [reflexivity|].
  cbn [flat_map map]. rewrite filter_app, IH. reflexivity.
Qed.

(** X19. [engine_sf_nodes] adds five arguments for each node budget, in the
    order of the budgets, and budgets that differ give engine names that
    differ. *)
Theorem sf_engines_distinct (sf_path : string) (nodes : list Z) :
  NoDup nodes ->
  engine_sf_nodes sf_path nodes = flat_map (sf_entry sf_path) nodes
  /\ List.length (engine_sf_nodes sf_path nodes) = (5 * List.length nodes)%nat
  /\ filter is_name (engine_sf_nodes sf_path nodes)
     = map (fun n => ("name=SF_N" ++ str_of_int n)%string) nodes
  /\ NoDup (filter is_name (engine_sf_nodes sf_path nodes)).
Proof.
  intros Hnd. rewrite engine_sf_nodes_flat, sf_names.
  split; [reflexivity|]. split; [|split; [reflexivity|]].
  - clear Hnd. induction nodes as [|n nodes IH]; [reflexivity|].
    cbn [flat_map]. rewrite length_app, IH. cbn [sf_entry List.length]. lia.
  - apply Finite.Injective_map_NoDup; [|exact Hnd].
    intros a b H. apply str_of_int_inj.
    cbn [append] in H. now injection H.
Qed.

Lemma sf_engines_distinct_witness :
  NoDup (filter is_name (engine_sf_nodes "engines/stockfish" [300; 1000; 3000]%Z)).
Proof.
  apply (@sf_engines_distinct "engines/stockfish" [300; 1000; 3000]%Z).
  repeat constructor; simpl; intuition discriminate.
Defined.

(** *** [split("=", 1)] *)

Lemma rev_to_string_acc (cur : list ascii) :
  forall acc,
    Str.rev_to_string cur acc = (Str.rev_to_string cur "" ++ acc)%string.
Proof.
  induction cur as [|c cur IH]; intros acc; cbn [Str.rev_to_string];
    [reflexivity|].
  rewrite (IH (String c acc)), (IH (String c "")), ReFacts.append_assoc.
  reflexivity.
Qed.

Lemma split1_from_spec (c : ascii) (s : string) :
  forall cur,
    Str.contains (String c "") s = true ->
    exists n p,
      s = (n ++ String c p)%string /\ lacks c n = true
      /\ split1_from c cur s = [(Str.rev_to_string cur "" ++ n)%string; p].
Proof.
  induction s as [|a s IH]; intros cur; cbn [Str.contains Str.startswith].
  - discriminate.
  - cbn [split1_from]. destruct (Ascii.eqb_spec a c) as [->|Hne].
    + intros _. exists "", s. rewrite ReFacts.append_empty_r. now repeat split.
    + destruct (Ascii.eqb_spec c a) as [->|_]; [congruence|].
      cbn [andb orb]. intros Hc.
      destruct (IH (a :: cur) Hc) as [n [p [-> [Hl Hsplit]]]].
      exists (String a n), p. split; [reflexivity|]. split.
      * unfold lacks in *. cbn [every].
        destruct (Ascii.eqb_spec a c); [congruence | exact Hl].
      * rewrite Hsplit. cbn [Str.rev_to_string].
        rewrite (rev_to_string_acc cur (String a "")), ReFacts.append_assoc.
        reflexivity.
Qed.

Lemma split1_spec (c : ascii) (s : string) :
  Str.contains (String c "") s = true ->
  split1 c s = [before c s; after c s]
  /\ s = (before c s ++ String c (after c s))%string
  /\ lacks c (before c s) = true.
Proof.
  intros H. destruct (split1_from_spec c s [] H) as [n [p [Hs [Hl Hsplit]]]].
  unfold before, after, split1. rewrite Hsplit. cbn [hd tl Str.rev_to_string append].
  auto.
Qed.

(** *** [engine_named] *)

Section Named.

Variable w : world.

Lemma engine_named_from_ok (specs : list string) :
  (forall spec, In spec specs -> accepted w spec) ->
  forall out ev,
    engine_named_from w out specs ev
    = (ev, Ret (out ++ flat_map named_entry specs)).
Proof.
  induction specs as [|spec specs IH]; intros Hok out ev;
    cbn [engine_named_from flat_map].
  - unfold ret. now rewrite app_nil_r.
  - destruct (Hok spec (or_introl eq_refl)) as [Hc Hx].
    destruct (split1_spec "=" spec Hc) as [Hsplit _].
    rewrite Hc, Hsplit. cbn [negb]. unfold bind, require_executable.
    rewrite Hx. cbn [negb ret]. rewrite IH.
    + now rewrite <- List.app_assoc.
    + intros s Hs. apply Hok. now right.
Qed.

(** X20. When every specification is accepted, [engine_named] returns four
    arguments for each, in order, and does nothing else.  The name and
    the path it passes on are the two sides of the first equals sign:
    put together again they give the specification. *)
Theorem engine_named_ok (specs : list string) (ev : list event) :
  (forall spec, In spec specs -> accepted w spec) ->
  engine_named w specs ev = (ev, Ret (flat_map named_entry specs))
  /\ forall spec, In spec specs ->
       spec = (before "=" spec ++ "=" ++ after "=" spec)%string
       /\ lacks "=" (before "=" spec) = true.
Proof.
  intros Hok. split.
  - unfold engine_named. now rewrite engine_named_from_ok.
  - intros spec Hin. destruct (Hok spec Hin) as [Hc _].
    destruct (split1_spec "=" spec Hc) as [_ [Hs Hl]]. auto.
Qed.

(** X21. The first specification that is not accepted ends the call: one
    without an equals sign with the message about the form, one whose
    path is not an executable file with the message that names the path
    and, when it is not empty, the name. *)
Theorem engine_named_rejects (good rest : list string) (bad : string)
        (ev : list event) :
  (forall spec, In spec good -> accepted w spec) ->
  ~ accepted w bad ->
  engine_named w (good ++ bad :: rest) ev
  = (ev,
     Exit (if Str.contains "=" bad
           then "❌ Not executable: " ++ after "=" bad
                ++ label_suffix (Some (before "=" bad))
           else "❌ --opponent must be of the form Name=/path/to/bin")%string).
Proof.
  intros Hgood Hbad. unfold engine_named.
  assert (Hgen : forall out,
             engine_named_from w out (good ++ bad :: rest) ev
             = engine_named_from w (out ++ flat_map named_entry good)
                 (bad :: rest) ev).
  { induction good as [|spec good IH]; intros out; cbn [app flat_map].
    - now rewrite app_nil_r.
    - cbn [engine_named_from].
      destruct (Hgood spec (or_introl eq_refl)) as [Hc Hx].
      destruct (split1_spec "=" spec Hc) as [Hsplit _].
      rewrite Hc, Hsplit. cbn [negb]. unfold bind at 1, require_executable.
      rewrite Hx. cbn [negb ret]. rewrite IH.
      + now rewrite <- List.app_assoc.
      + intros s Hs. apply Hgood. now right. }
  rewrite Hgen. cbn [engine_named_from].
  destruct (Str.contains "=" bad) eqn:Hc; cbn [negb]; [|reflexivity].
  destruct (split1_spec "=" bad Hc) as [Hsplit _]. rewrite Hsplit.
  unfold bind, require_executable.
  destruct (isfile w (after "=" bad) && access_x w (after "=" bad)) eqn:Hx.
  - exfalso. apply Hbad. now split.
  - reflexivity.
Qed.

End Named.

(** *** [main] *)

Section Main.

Variable F : Type.
Variable float_str : F -> string.
Variable int_of_str : string -> option Z.
Variable quote : string -> string.
Variable w : world.

Lemma require_executable_cases (path : string) (label : option string)
      (ev : list event) :
  (isfile w path && access_x w path = true
   /\ require_executable w path label ev = (ev, Ret path))
  \/ (isfile w path && access_x w path = false
      /\ exists msg, require_executable w path label ev = (ev, Exit msg)).
Proof.
  unfold require_executable.
  destruct (isfile w path && access_x w path); cbn [negb]; [left | right];
    (split; [reflexivity|]); [reflexivity | eexists; reflexivity].
Qed.

Lemma require_file_cases (path : string) (label : option string)
      (ev : list event) :
  (isfile w path = true /\ require_file w path label ev = (ev, Ret path))
  \/ (isfile w path = false
      /\ exists msg, require_file w path label ev = (ev, Exit msg)).
Proof.
  unfold require_file.
  destruct (isfile w path); cbn [negb]; [left | right];
    (split; [reflexivity|]); [reflexivity | eexists; reflexivity].
Qed.

Lemma gauntlet_main_cases (a : args F) (ev : list event) (r : res unit) :
  main float_str int_of_str quote w a [] = (ev, r) ->
  (exists msg, ev = [] /\ r = Exit msg)
  \/ (validated w a
      /\ ev = match truthy (pgn a) with
              | Some _ => []
              | None => [MadeDirs "runs"]
              end
      /\ r = Raise "NameError").
Proof.
  unfold main, validated.
  unfold bind at 1.
  destruct (require_executable_cases (runner a) (Some "cutechess-cli") [])
    as [[H1 ->]|[_ [msg ->]]]; [|intros [= <- <-]; left; now exists msg].
  unfold bind at 1.
  destruct (require_file_cases (openings a) (Some "openings PGN") [])
    as [[H2 ->]|[_ [msg ->]]]; [|intros [= <- <-]; left; now exists msg].
  unfold bind at 1.
  destruct (require_executable_cases (eut a) (Some "EUT") [])
    as [[H3 ->]|[_ [msg ->]]]; [|intros [= <- <-]; left; now exists msg].
  unfold bind at 1.
  destruct (truthy (sf_nodes a)) as [s|] eqn:Hsf.
  - unfold bind at 1.
    destruct (require_executable_cases (stockfish a) (Some "Stockfish") [])
      as [[H4 ->]|[_ [msg ->]]]; [|intros [= <- <-]; left; now exists msg].
    cbn [ret]. unfold bind at 1.
    destruct (truthy (pgn a)); intros [= <- <-]; right; now repeat split.
  - cbn [ret]. unfold bind at 1.
    destruct (truthy (pgn a)); intros [= <- <-]; right;
      (split; [repeat split; auto; congruence | now split]).
Qed.

(** X22. [main] never starts cutechess-cli and never prints a line.  A run
    ends in [sys.exit] at one of the checks of lines 163 to 167, having
    done nothing; or it passes them and ends in the NameError of line
    177, having done no more than create the directory [runs]. *)
Theorem main_never_launches (a : args F) :
  let out := main float_str int_of_str quote w a [] in
  (forall cmd, ~ In (Ran cmd) (fst out))
  /\ (forall line, ~ In (Printed line) (fst out))
  /\ ((exists msg, snd out = Exit msg /\ fst out = [])
      \/ (snd out = Raise "NameError"
          /\ (fst out = [] \/ fst out = [MadeDirs "runs"]))).
Proof.
  cbv zeta. destruct (main float_str int_of_str quote w a []) as [ev r] eqn:E.
  destruct (gauntlet_main_cases a E) as [[msg [-> ->]]|[_ [-> ->]]]; cbn [fst snd].
  - split; [intros cmd []|]. split; [intros line []|]. left. now exists msg.
  - split; [|split].
    + intros cmd. destruct (truthy (pgn a)); [intros [] | intros [[=]|[]]].
    + intros line. destruct (truthy (pgn a)); [intros [] | intros [[=]|[]]].
    + right. split; [reflexivity|]. destruct (truthy (pgn a)); auto.
Qed.

(** X23. With every file in place the run still ends at line 177: NameError,
    after the directory [runs] was created unless [--pgn] was given. *)
Theorem main_stops_at_line_177 (a : args F) :
  isfile w (runner a) && access_x w (runner a) = true ->
  isfile w (openings a) = true ->
  isfile w (eut a) && access_x w (eut a) = true ->
  isfile w (stockfish a) && access_x w (stockfish a) = true ->
  main float_str int_of_str quote w a []
  = (match truthy (pgn a) with
     | Some _ => []
     | None => [MadeDirs "runs"]
     end,
     Raise "NameError").
Proof.
  intros H1 H2 H3 H4. unfold main, bind, require_executable, require_file.
  rewrite H1, H2, H3. cbn [negb ret].
  destruct (truthy (sf_nodes a)); [rewrite H4; cbn [negb ret]|];
    destruct (truthy (pgn a)); reflexivity.
Qed.

End Main.

Lemma engine_named_ok_witness :
  engine_named sample_world ["Igel=engines/igel"; "Ethereal=engines/ethereal"] []
  = ([], Ret ["-engine"; "name=Igel"; "cmd=engines/igel"; "proto=uci";
              "-engine"; "name=Ethereal"; "cmd=engines/ethereal"; "proto=uci"]).
Proof.
  refine (proj1 (@engine_named_ok sample_world
    ["Igel=engines/igel"; "Ethereal=engines/ethereal"] [] _)).
  intros spec [<-|[<-|[]]]; split; reflexivity.
Defined.

Lemma engine_named_rejects_witness :
  engine_named sample_world ["Igel=engines/igel"; "Ethereal"; "X=engines/x"] []
  = ([], Exit "❌ --opponent must be of the form Name=/path/to/bin").
Proof.
  refine (@engine_named_rejects sample_world
    ["Igel=engines/igel"] ["X=engines/x"] "Ethereal" [] _ _).
  - intros spec [<-|[]]; split; reflexivity.
  - intros [H _]. discriminate H.
Defined.

Lemma main_stops_at_line_177_witness :
  main (fun _ : unit => "") (fun _ => None) (fun s => s)
       sample_world sample_args []
  = ([MadeDirs "runs"], Raise "NameError").
Proof.
  refine (@main_stops_at_line_177 unit (fun _ => "") (fun _ => None)
            (fun s => s) sample_world sample_args _ _ _ _); reflexivity.
Defined.

End GauntletFacts.
